(** * neat: the generational step of a population (population.go)

    A shallow embedding of [population.go]: the population container, the
    generational step [rollPop] with its phases, the roulette-wheel selector
    [tournament], the clustering step [speciate] and the two population
    queries [Organisms] and [MPC].

    Go's [float64] is Rocq's primitive binary64 [float]; Go's [int] is [Z]
    (two's complement wrap-around written out where the code adds or
    subtracts configuration and age counters; lengths of slices and what is
    counted against them stay far below [2^63]); a slice is a [list]; a
    run-time panic is the [Panic] outcome of the [Result] type.  Running out
    of memory is not modelled.

    Pointers.  The species and organisms held in slices are not nil.  The
    [*Organism] that [tournament] returns and the [*Species] variable
    [bestSpecies] can be nil and are [option]s.  What the code updates in
    place (a species' fitness, its organisms, its example) is returned by the
    function that embeds the update.  [cloneOrg] and [crossover] hand out
    fresh organisms, so that [mutate], which works in place on the child it
    is given, is a function from the child to the mutated child.

    [initialPopulation] only wires collaborators together and is not
    embedded; [rollPop]'s [err] result is never set and is left out. *)

From Stdlib Require Import ZArith List Bool Lia Uint63 QArith Qround.
From Stdlib Require Import Sorting.Permutation.
From Stdlib Require String Ascii DecimalString DecimalZ.
From Stdlib Require Import Floats.PrimFloat Floats.SpecFloat Floats.FloatOps Floats.FloatAxioms.
Import ListNotations.

Local Open Scope Z_scope.

(** ** Run-time outcomes *)

(** The ways a step of this file can abort at run time. *)
Inductive panic : Type :=
| NilDereference      (* a field of a nil pointer is read *)
| IndexOutOfRange     (* [s[i]] or [s[:k]] outside the slice *)
| MakeSliceCap        (* [make([]T, 0, cap)] with a negative capacity *)
| External.           (* a collaborator outside this file aborted *)

Inductive Result (A : Type) : Type :=
| Ok (a : A)
| Panic (p : panic).
Arguments Ok {A} a.
Arguments Panic {A} p.

(** ** Numbers *)

(** Go's [int] on a 64-bit platform: the wrap-around of [+] and [-]. *)
Definition wrap (z : Z) : Z := (z + 2 ^ 63) mod 2 ^ 64 - 2 ^ 63.

(** [float64(n)] for an [int] [n]: conversion rounds to nearest even, as the
    primitive conversion of the magnitude does. *)
Definition float64_of_int (n : Z) : float :=
  let m := Z.abs n in
  let f := if m <? 2 ^ 63 then PrimFloat.of_uint63 (Uint63.of_Z m)
           else 9223372036854775808%float in
  if n <? 0 then PrimFloat.opp f else f.

(** [int(f)] for a [float64] [f]: the fraction is discarded (truncation
    towards zero).  Go leaves the result for NaN, the infinities and values
    outside the range of [int] to the platform; [unrepresentable] stands for
    that choice. *)
Definition int_of_float64 (unrepresentable : float -> Z) (f : float) : Z :=
  match Prim2SF f with
  | S754_zero _ => 0
  | S754_finite s m e =>
      let mag := if 0 <=? e then Z.pos m * 2 ^ e else Z.pos m / 2 ^ (- e) in
      let v := if s then - mag else mag in
      if (- 2 ^ 63 <=? v) && (v <? 2 ^ 63) then v else unrepresentable f
  | S754_infinity _ | S754_nan => unrepresentable f
  end.

(** The exact value of a finite [float64], as a rational. *)
Definition float64_value (f : float) : option Q :=
  match Prim2SF f with
  | S754_zero _ => Some 0%Q
  | S754_finite s m e =>
      let mag := if 0 <=? e then inject_Z (Z.pos m * 2 ^ e)
                 else Qmake (Z.pos m) (Z.to_pos (2 ^ (- e))) in
      Some (if s then Qopp mag else mag)
  | S754_infinity _ | S754_nan => None
  end.

(** ** The step monad: shared mutable state and panics

    [W] is everything the process keeps between calls and this file does not
    own: the shared random source and the innovation (identifier) counter. *)

Definition M (W A : Type) : Type := W -> Result (A * W).

Definition ret {W A} (a : A) : M W A := fun w => Ok (a, w).

Definition bind {W A B} (c : M W A) (k : A -> M W B) : M W B :=
  fun w => match c w with
           | Ok (a, w') => k a w'
           | Panic p => Panic p
           end.

Definition throw {W A} (p : panic) : M W A := fun _ => Panic p.

(** A draw or a counter read: changes the state, cannot abort. *)
Definition total {W A} (f : W -> A * W) : M W A := fun w => Ok (f w).

(** A computation that does not touch the state. *)
Definition pure {W A} (r : Result A) : M W A :=
  fun w => match r with Ok a => Ok (a, w) | Panic p => Panic p end.

Declare Scope step_scope.
Delimit Scope step_scope with step.
Notation "x <- c ;; k" := (bind c (fun x => k))
  (at level 61, c at next level, right associativity) : step_scope.
Notation "' pat <- c ;; k" := (bind c (fun x => match x with pat => k end))
  (at level 61, pat pattern, c at next level, right associativity) : step_scope.
Local Open Scope step_scope.

(** ** Configuration *)

(** The fields of [Settings] that [population.go] reads. *)
Record Settings : Type := {
  PopulationSize : Z;
  SurvivalPercent : float;
  EliteCount : Z;
  AgeToStagnation : Z;
  Crossover : float;
  InterspeciesMating : float;
  CompatThreshold : float
}.

(** ** Data model *)

Section Model.

(** The gene encodings are declared outside [population.go]; only the lengths
    of the two gene sequences are observed here. *)
Context {NodeGene ConnGene : Type}.

Record Genome : Type := {
  GenomeID : Z;
  Nodes : list NodeGene;
  Conns : list ConnGene
}.

(** [Organism] embeds its genome; [Fitness] is a slice, [Fitness[0]] the
    primary fitness. *)
Record Organism : Type := {
  OrgGenome : Genome;
  Fitness : list float
}.

Record Species : Type := {
  ID : Z;
  Orgs : list Organism;
  Age : Z;
  BestFitness : float;
  BestFitAge : Z;
  Example : option Organism;      (* a pointer: nil until it is set *)
  currFitness : float
}.

Record Population : Type := {
  Generation : Z;
  PopSpecies : list Species       (* the field [Species] of the source *)
}.

(** [o.Fitness[0]]: panics on an empty fitness vector. *)
Definition fitness0 (o : Organism) : Result float :=
  match Fitness o with
  | f :: _ => Ok f
  | [] => Panic IndexOutOfRange
  end.

(** ** Collaborators

    What [population.go] calls and does not define: the random source, the
    innovation counter, the species' fitness aggregation, the organism
    ordering used by [sort.Sort], the genetic operators and the compatibility
    distance.  Pointers to organisms that may be nil are [option]s. *)
Class Externals (W : Type) : Type := {
  random_Next : W -> float * W;
  random_Float64 : W -> float * W;
  random_Int : Z -> M W Z;
  inno_nextID : W -> Z * W;
  inno_reset : W -> W;
  (* what [int(f)] gives on this platform when [f] has no [int] value *)
  unrepresentable : float -> Z;
  (* [s.calcFitness()]: updates the species in place *)
  calcFitness : Species -> M W Species;
  (* [sort.Sort(sort.Reverse(orgs))] under [OrganismSlice]'s ordering, which
     is not in this file; it runs after the scan has read every [Fitness[0]] *)
  sortReverse : list Organism -> list Organism;
  (* [orgs.TotalFitness()] *)
  TotalFitness : list Organism -> M W float;
  (* [living.Organisms(settings)] on a [SpeciesSlice] *)
  SpeciesSlice_Organisms : Settings -> list Species -> M W (list Organism);
  cloneOrg : option Organism -> Z -> M W Organism;
  mutate : Settings -> Organism -> M W Organism;
  crossover : option Organism -> option Organism -> M W Organism;
  distance : Settings -> Organism -> option Organism -> M W float
}.

Context {W : Type} {E : Externals W}.

(** ** Population queries *)

(** [Population.Organisms]: all organisms, species by species. *)
Definition Organisms (pop : Population) : list Organism :=
  flat_map Orgs (PopSpecies pop).

(** [len(o.Nodes) + len(o.Conns)]. *)
Definition geneCount (o : Organism) : Z :=
  Z.of_nat (length (Nodes (OrgGenome o))) + Z.of_nat (length (Conns (OrgGenome o))).

(** The two counters of [MPC] after its loops: total gene count and number
    of species. *)
Fixpoint mpcLoop (ss : list Species) (tot cnt : Z) : Z * Z :=
  match ss with
  | [] => (tot, cnt)
  | s :: rest =>
      mpcLoop rest (fold_left (fun t o => t + geneCount o) (Orgs s) tot) (cnt + 1)
  end.

(** [Population.MPC]. *)
Definition MPC (pop : Population) : float :=
  let '(tot, cnt) := mpcLoop (PopSpecies pop) 0 0 in
  PrimFloat.div (float64_of_int tot) (float64_of_int cnt).

(** ** Selection *)

(** The walk of [tournament] over the pool, [sum] being the fitness
    accumulated so far: the first organism at which the sum reaches the
    target, or nil when the loop runs out. *)
Fixpoint tournamentWalk (orgs : list Organism) (tgt sum : float)
  : Result (option Organism) :=
  match orgs with
  | [] => Ok None
  | o :: rest =>
      match fitness0 o with
      | Ok f =>
          let sum' := PrimFloat.add sum f in
          if PrimFloat.leb tgt sum' then Ok (Some o)
          else tournamentWalk rest tgt sum'
      | Panic p => Panic p
      end
  end.

Definition tournament (orgs : list Organism) (totFit : float)
  : M W (option Organism) :=
  r <- total random_Next ;;
  pure (tournamentWalk orgs (PrimFloat.mul r totFit) 0%float).

(** ** Best species *)

(** The state of the first loop of [rollPop]: [bestSpecies] (nil at first)
    and [bestFit] (zero at first).  [bestSpecies] is kept as the species it
    points to; the only field read through it later is [ID], which nothing
    writes after this loop. *)
Definition bestState : Type := (option Species * float)%type.

Fixpoint scanOrgs (s : Species) (orgs : list Organism) (st : bestState)
  : Result bestState :=
  match orgs with
  | [] => Ok st
  | o :: rest =>
      match fitness0 o with
      | Ok f =>
          if PrimFloat.ltb (snd st) f then scanOrgs s rest (Some s, f)
          else scanOrgs s rest st
      | Panic p => Panic p
      end
  end.

(** The first loop: every species has its fitness recomputed in place, then
    its organisms are scanned.  The species as left by the loop are returned
    with the final [bestState]. *)
Fixpoint scanSpecies (ss : list Species) (st : bestState)
  : M W (list Species * bestState) :=
  match ss with
  | [] => ret ([], st)
  | s :: rest =>
      s' <- calcFitness s ;;
      st' <- pure (scanOrgs s' (Orgs s') st) ;;
      '(rest', st'') <- scanSpecies rest st' ;;
      ret (s' :: rest', st'')
  end.

(** ** Survival gate and culling *)

(** [keep] as computed for a species of [n] organisms. *)
Definition keepCount (settings : Settings) (n : Z) : Z :=
  let keep := int_of_float64 unrepresentable
                (PrimFloat.mul (SurvivalPercent settings) (float64_of_int n)) in
  let keep := if keep <? EliteCount settings then EliteCount settings else keep in
  if keep >? n then n else keep.

(** The body of the gate for a species that passes it: sort, truncate to
    [keep], total the retained fitness, draw the example.  Returns the
    species as left in place and the total added to [popFit]. *)
Definition cullSpecies (settings : Settings) (s : Species)
  : M W (Species * float) :=
  let sorted := sortReverse (Orgs s) in
  let keep := keepCount settings (Z.of_nat (length sorted)) in
  if keep <? 0 then throw IndexOutOfRange            (* s.Orgs[:keep] *)
  else
    let kept := firstn (Z.to_nat keep) sorted in
    tf <- TotalFitness kept ;;
    i <- random_Int keep ;;
    match (if i <? 0 then None else nth_error kept (Z.to_nat i)) with
    | None => throw IndexOutOfRange                   (* s.Orgs[i] *)
    | Some ex =>
        ret ({| ID := ID s; Orgs := kept; Age := Age s;
                BestFitness := BestFitness s; BestFitAge := BestFitAge s;
                Example := Some ex; currFitness := currFitness s |}, tf)
    end.

(** [living], [adjFit] and [popFit]. *)
Record cullState : Type := {
  living : list Species;
  adjFit : float;
  popFit : float
}.

(** The gate: [s.ID == bestSpecies.ID || s.Age-s.BestFitAge < AgeToStagnation]. *)
Definition survives (settings : Settings) (b s : Species) : bool :=
  (ID s =? ID b) || (wrap (Age s - BestFitAge s) <? AgeToStagnation settings).

(** The second loop.  The gate reads [bestSpecies.ID] at every species. *)
Fixpoint cullLoop (settings : Settings) (best : option Species)
         (ss : list Species) (st : cullState) : M W cullState :=
  match ss with
  | [] => ret st
  | s :: rest =>
      match best with
      | None => throw NilDereference
      | Some b =>
          if survives settings b s then
            '(s', tf) <- cullSpecies settings s ;;
            cullLoop settings best rest
              {| living := living st ++ [s'];
                 adjFit := PrimFloat.add (adjFit st) (currFitness s);
                 popFit := PrimFloat.add (popFit st) tf |}
          else cullLoop settings best rest st
      end
  end.

(** ** Reproduction *)

(** The species' share of the next generation:
    [int(currS.currFitness / adjFit * float64(settings.PopulationSize))]. *)
Definition budget (settings : Settings) (totAdj : float) (currS : Species) : Z :=
  int_of_float64 unrepresentable
    (PrimFloat.mul (PrimFloat.div (currFitness currS) totAdj)
                   (float64_of_int (PopulationSize settings))).

(** The organisms appended by the elite loop
    [for i := 0; i < EliteCount && i < len(currS.Orgs); i++]. *)
Definition elites (settings : Settings) (currS : Species) : list Organism :=
  firstn (Z.to_nat (EliteCount settings)) (Orgs currS).

(** One pass of the body of the offspring loop. *)
Definition offspringSlot (settings : Settings) (currS : Species) (orgFit : float)
           (popOrgs : list Organism) (totPop : float)
           (children : list Organism) : M W (list Organism) :=
  r <- total random_Float64 ;;
  if PrimFloat.ltb r (InterspeciesMating settings) then ret children (* continue *)
  else
    p1 <- tournament (Orgs currS) orgFit ;;
    mutateOnly <-
      (if Z.of_nat (length (Orgs currS)) =? 1 then ret true
       else r2 <- total random_Next ;;
            ret (PrimFloat.ltb (Crossover settings) r2)) ;;
    if (mutateOnly : bool) then
      id <- total inno_nextID ;;
      child <- cloneOrg p1 id ;;
      child <- mutate settings child ;;
      ret (children ++ [child])
    else
      r3 <- total random_Next ;;
      p2 <- (if PrimFloat.ltb r3 (InterspeciesMating settings)
             then tournament popOrgs totPop
             else tournament (Orgs currS) orgFit) ;;
      child <- crossover p1 p2 ;;
      child <- mutate settings child ;;
      ret (children ++ [child]).

(** [for i := 0; i < cnt; i++], [n] being the passes left. *)
Fixpoint offspringLoop (n : nat) (settings : Settings) (currS : Species)
         (orgFit : float) (popOrgs : list Organism) (totPop : float)
         (children : list Organism) : M W (list Organism) :=
  match n with
  | O => ret children
  | S n' =>
      children' <- offspringSlot settings currS orgFit popOrgs totPop children ;;
      offspringLoop n' settings currS orgFit popOrgs totPop children'
  end.

(** The top-up loop [for c := 0; c < cnt; c++], [n] being the passes left. *)
Fixpoint topUp (n : nat) (settings : Settings) (popOrgs : list Organism)
         (totPop : float) (children : list Organism) : M W (list Organism) :=
  match n with
  | O => ret children
  | S n' =>
      p1 <- tournament popOrgs totPop ;;
      p2 <- tournament popOrgs totPop ;;
      child <- crossover p1 p2 ;;
      child <- mutate settings child ;;
      topUp n' settings popOrgs totPop (children ++ [child])
  end.

(** "Ensure we have the right number of children". *)
Definition ensureCount (settings : Settings) (popOrgs : list Organism)
           (totPop : float) (children : list Organism) : M W (list Organism) :=
  let len := Z.of_nat (length children) in
  if len >? PopulationSize settings then
    if PopulationSize settings <? 0 then throw IndexOutOfRange
    else ret (firstn (Z.to_nat (PopulationSize settings)) children)
  else
    topUp (Z.to_nat (PopulationSize settings - len)) settings popOrgs totPop children.

(** The part of the loop body before the count is ensured: the budget, the
    next generation's copy of the species, the elite, the offspring. *)
Definition breed (settings : Settings) (totAdj : float)
           (popOrgs : list Organism) (totPop : float) (currS : Species)
           (children : list Organism) : M W (Species * list Organism) :=
  let cnt := budget settings totAdj currS in
  if cnt <? 0 then throw MakeSliceCap                  (* make(_, 0, cnt) *)
  else
    let nextS := {| ID := ID currS; Orgs := []; Age := wrap (Age currS + 1);
                    BestFitness := BestFitness currS;
                    BestFitAge := BestFitAge currS;
                    Example := Example currS; currFitness := 0%float |} in
    let children := children ++ elites settings currS in
    let cnt := cnt - Z.of_nat (length (elites settings currS)) in
    orgFit <- TotalFitness (Orgs currS) ;;
    children <- offspringLoop (Z.to_nat cnt) settings currS orgFit
                               popOrgs totPop children ;;
    ret (nextS, children).

(** The body of [for _, currS := range living], as the source has it: the
    count is ensured inside the loop, at the end of every pass. *)
Definition reproduceSpecies (settings : Settings) (totAdj : float)
           (popOrgs : list Organism) (totPop : float) (currS : Species)
           (st : list Species * list Organism)
  : M W (list Species * list Organism) :=
  '(nextS, children) <- breed settings totAdj popOrgs totPop currS (snd st) ;;
  children <- ensureCount settings popOrgs totPop children ;;
  ret (fst st ++ [nextS], children).

Fixpoint reproduceLoop (settings : Settings) (totAdj : float)
         (popOrgs : list Organism) (totPop : float) (livingS : list Species)
         (st : list Species * list Organism)
  : M W (list Species * list Organism) :=
  match livingS with
  | [] => ret st
  | currS :: rest =>
      st' <- reproduceSpecies settings totAdj popOrgs totPop currS st ;;
      reproduceLoop settings totAdj popOrgs totPop rest st'
  end.

(** ** Speciation *)

(** [s.Orgs = append(s.Orgs, child)]. *)
Definition appendOrg (s : Species) (child : Organism) : Species :=
  {| ID := ID s; Orgs := Orgs s ++ [child]; Age := Age s;
     BestFitness := BestFitness s; BestFitAge := BestFitAge s;
     Example := Example s; currFitness := currFitness s |}.

(** The inner loop of [speciate]: the species list with the child appended to
    the first species whose example is closer than the threshold, or [None]
    when [found] stays false. *)
Fixpoint place (settings : Settings) (child : Organism) (ss : list Species)
  : M W (option (list Species)) :=
  match ss with
  | [] => ret None
  | s :: rest =>
      d <- distance settings child (Example s) ;;
      if PrimFloat.ltb d (CompatThreshold settings) then
        ret (Some (appendOrg s child :: rest))
      else
        r <- place settings child rest ;;
        ret (option_map (cons s) r)
  end.

Fixpoint speciate (settings : Settings) (children : list Organism)
         (ss : list Species) : M W (list Species) :=
  match children with
  | [] => ret ss
  | child :: rest =>
      r <- place settings child ss ;;
      match r with
      | Some ss' => speciate settings rest ss'
      | None =>
          id <- total inno_nextID ;;
          speciate settings rest
            (ss ++ [{| ID := id; Orgs := [child]; Age := 0;
                       BestFitness := 0%float; BestFitAge := 0;
                       Example := Some child; currFitness := 0%float |}])
      end
  end.

(** "Prune off species which are empty". *)
Definition prune (ss : list Species) : list Species :=
  filter (fun s => 0 <? Z.of_nat (length (Orgs s))) ss.

(** ** The generational step *)

Definition rollPop (settings : Settings) (population : Population)
  : M W Population :=
  '(species1, st) <- scanSpecies (PopSpecies population) (None, 0%float) ;;
  cs <- cullLoop settings (fst st) species1
          {| living := []; adjFit := 0%float; popFit := 0%float |} ;;
  popOrgs <- SpeciesSlice_Organisms settings (living cs) ;;
  _ <- total (fun w => (tt, inno_reset w)) ;;
  '(nextSpecies, children) <-
     reproduceLoop settings (adjFit cs) popOrgs (popFit cs) (living cs) ([], []) ;;
  nextSpecies <- speciate settings children nextSpecies ;;
  ret {| Generation := wrap (Generation population + 1);
         PopSpecies := prune nextSpecies |}.

End Model.

(** ** Printing *)

Module Printing.

Import String.
Local Open Scope string_scope.

(** What the verb [%d] prints for an [int]: its decimal digits, after a
    minus sign when it is negative. *)
Definition decimal (z : Z) : string :=
  DecimalString.NilEmpty.string_of_int (Z.to_int z).

(** [Population.String]. *)
Definition Population_String {NodeGene ConnGene : Type}
           (pop : @Population NodeGene ConnGene) : string :=
  "Population: Generation is " ++ decimal (Generation pop)
  ++ " with " ++ decimal (Z.of_nat (List.length (PopSpecies pop))) ++ " Species".

(** No character of the string is a space. *)
Fixpoint spaceless (s : string) : Prop :=
  match s with
  | EmptyString => True
  | String c rest => c <> Ascii.Space /\ spaceless rest
  end.

End Printing.

(** ** The initial population *)

Section Initialisation.

Context {NodeGene ConnGene : Type}.
Local Abbreviation Genome := (@Genome NodeGene ConnGene).
Local Abbreviation Organism := (@Organism NodeGene ConnGene).
Local Abbreviation Population := (@Population NodeGene ConnGene).

(** What [initialPopulation] calls besides the innovation counter: the seed
    genome (which can fail with an [error], kept as its message), genome
    cloning, the Gaussian draw, and the effect of [cg.Weight = x] on the
    connection gene that the slice holds. *)
Class SeedExternals (W : Type) : Type := {
  initialGenome : Settings -> M W (Genome + String.string);
  cloneGenome : Genome -> Z -> M W Genome;
  random_Gaussian : W -> float * W;
  setWeight : ConnGene -> float -> ConnGene
}.

Context {W : Type} {E : @Externals NodeGene ConnGene W} {G : SeedExternals W}.

(** [for _, cg := range g.Conns { cg.Weight = random.Gaussian() }]. *)
Fixpoint reweigh (conns : list ConnGene) : M W (list ConnGene) :=
  match conns with
  | [] => ret []
  | cg :: rest =>
      x <- total random_Gaussian ;;
      rest' <- reweigh rest ;;
      ret (setWeight cg x :: rest')
  end.

(** The body of the loop that fills the species: [n] organisms are still to
    be made, [orgs] are made. *)
Fixpoint fillSpecies (n : nat) (ig : Genome) (orgs : list Organism)
  : M W (list Organism) :=
  match n with
  | O => ret orgs
  | S n' =>
      id <- total inno_nextID ;;
      g <- cloneGenome ig id ;;
      conns <- reweigh (Conns g) ;;
      fillSpecies n' ig
        (orgs ++ [{| OrgGenome := {| GenomeID := GenomeID g; Nodes := Nodes g;
                                     Conns := conns |};
                     Fitness := [] |}])
  end.

(** The two ways [initialPopulation] returns.  With an error it still hands
    back the population built so far: one species with the identifier drawn
    for it and [slots] organism slots, all nil. *)
Inductive initialResult : Type :=
| Seeded (pop : Population)
| SeedFailed (id : Z) (slots : Z) (err : String.string).

Definition initialPopulation (settings : Settings) : M W initialResult :=
  id <- total inno_nextID ;;
  if PopulationSize settings <? 0 then throw MakeSliceCap  (* make(_, size) *)
  else
    r <- initialGenome settings ;;
    match r with
    | inr e2 => ret (SeedFailed id (PopulationSize settings) e2)
    | inl ig =>
        orgs <- fillSpecies (Z.to_nat (PopulationSize settings)) ig [] ;;
        ret (Seeded {| Generation := 1;
                       PopSpecies :=
                         [{| ID := id; Orgs := orgs; Age := 0;
                             BestFitness := 0%float; BestFitAge := 0;
                             Example := None; currFitness := 0%float |}] |})
    end.

End Initialisation.

(** ** Vocabulary of the properties *)

Section Vocabulary.

Context {NodeGene ConnGene : Type}.
Local Abbreviation Organism := (@Organism NodeGene ConnGene).
Local Abbreviation Species := (@Species NodeGene ConnGene).

(** The primary fitness of an organism that has one. *)
Definition primaryFitness (o : Organism) : float :=
  match Fitness o with f :: _ => f | [] => 0%float end.

(** The fitness accumulated over the first [k] organisms of a pool, summed
    from zero in pool order. *)
Definition prefixFitness (orgs : list Organism) (k : nat) : float :=
  fold_left (fun acc o => PrimFloat.add acc (primaryFitness o)) (firstn k orgs) 0%float.

(** No organism of the species list has a primary fitness above [f]. *)
Definition noneAbove (ss : list Species) (f : float) : Prop :=
  forall s o f', In s ss -> In o (Orgs s) -> fitness0 o = Ok f' ->
                 PrimFloat.ltb f f' = false.


Section WithCollaborators.

Context {W : Type} {E : @Externals NodeGene ConnGene W}.


(** [c] sits in species [s], which is the species founded on it or one whose
    example was found closer to it than the compatibility threshold. *)
Definition placedIn (settings : Settings) (c : Organism) (s : Species) : Prop :=
  In c (Orgs s) /\
  (Example s = Some c \/
   exists wa d wb, distance settings c (Example s) wa = Ok (d, wb) /\
                   PrimFloat.ltb d (CompatThreshold settings) = true).


(** The number of organisms over all the species of a list. *)
Definition organismCount (ss : list Species) : nat :=
  length (flat_map Orgs ss).

(** A parent as selection hands it out: nil, or an organism of the pool. *)
Definition parentFrom (pool : list Organism) (p : option Organism) : Prop :=
  p = None \/ exists o, p = Some o /\ In o pool.

(** [child] came out of the per-species dispatch for a species with the
    survivors [own], the whole pool being [pool]: the mutation of a clone of a
    parent from [own], or the mutation of a crossover of a parent from [own]
    with a parent from [own] or from [pool]. *)
Definition offspringOf (settings : Settings) (own pool : list Organism)
           (child : Organism) : Prop :=
  exists c w1 w2, mutate settings c w1 = Ok (child, w2) /\
    ((exists p1 id w0, parentFrom own p1 /\ cloneOrg p1 id w0 = Ok (c, w1)) \/
     (exists p1 p2 w0, parentFrom own p1 /\
                       (parentFrom own p2 \/ parentFrom pool p2) /\
                       crossover p1 p2 w0 = Ok (c, w1))).

(** [child] came out of the top-up loop: the mutation of a crossover of two
    parents from the whole pool. *)
Definition toppedUpFrom (settings : Settings) (pool : list Organism)
           (child : Organism) : Prop :=
  exists c w1 w2 p1 p2 w0,
    mutate settings c w1 = Ok (child, w2) /\
    parentFrom pool p1 /\ parentFrom pool p2 /\
    crossover p1 p2 w0 = Ok (c, w1).

(** The example of [s] was measured against [child] and found closer than the
    threshold, or not. *)
Definition closeTo (settings : Settings) (child : Organism) (s : Species) : Prop :=
  exists wa d wb, distance settings child (Example s) wa = Ok (d, wb) /\
                  PrimFloat.ltb d (CompatThreshold settings) = true.

Definition notCloseTo (settings : Settings) (child : Organism) (s : Species) : Prop :=
  exists wa d wb, distance settings child (Example s) wa = Ok (d, wb) /\
                  PrimFloat.ltb d (CompatThreshold settings) = false.

(** The next generation's copy of a living species, before speciation. *)
Definition nextCopy (currS : Species) : Species :=
  {| ID := ID currS; Orgs := []; Age := wrap (Age currS + 1);
     BestFitness := BestFitness currS; BestFitAge := BestFitAge currS;
     Example := Example currS; currFitness := 0%float |}.

(** [s'] is [s] with organisms appended and nothing else changed. *)
Definition grownFrom (s s' : Species) : Prop :=
  exists more,
    s' = {| ID := ID s; Orgs := Orgs s ++ more; Age := Age s;
            BestFitness := BestFitness s; BestFitAge := BestFitAge s;
            Example := Example s; currFitness := currFitness s |}.

(** [s] was created by [speciate]: a fresh identifier, age zero, a first
    organism that is its example. *)
Definition founded (s : Species) : Prop :=
  exists w0 o more,
    ID s = fst (inno_nextID w0) /\ Orgs s = o :: more /\ Example s = Some o /\
    Age s = 0 /\ BestFitAge s = 0 /\
    BestFitness s = 0%float /\ currFitness s = 0%float.

(** [s] is what culling leaves of [x]. *)
Definition culledFrom (settings : Settings) (x s : Species) : Prop :=
  exists tf wa wb, cullSpecies settings x wa = Ok (s, tf, wb).

End WithCollaborators.

End Vocabulary.

Section SeedVocabulary.

Context {NodeGene ConnGene W : Type} {G : @SeedExternals NodeGene ConnGene W}.

(** [o] is an organism as [initialPopulation] makes it from the seed [ig]: a
    clone of the seed in which every connection gene had its weight assigned
    once, and no fitness yet. *)
Definition seedClone (ig : @Genome NodeGene ConnGene)
           (o : @Organism NodeGene ConnGene) : Prop :=
  exists id wa g wb xs,
    cloneGenome ig id wa = Ok (g, wb) /\
    length xs = length (Conns g) /\
    OrgGenome o = {| GenomeID := GenomeID g; Nodes := Nodes g;
                     Conns := map (fun cx => setWeight (fst cx) (snd cx))
                                  (combine (Conns g) xs) |} /\
    Fitness o = [].

End SeedVocabulary.

(** ** Reference collaborators

    One concrete choice of everything [population.go] leaves to other files,
    used to run the step on sample populations: a random source that replays
    a tape of draws, a counter for identifiers, fitness aggregation by
    summation, a stable sort by primary fitness, cloning that copies and
    dereferences its parent, mutation that adds one node gene, crossover that
    takes the nodes of one parent and the connections of the other, and the
    difference of gene counts as the distance. *)
Module Demo.

Record world : Type := {
  floats : list float;     (* the draws of Next and Float64 to come *)
  ints : list Z;           (* the draws of Int to come *)
  nextId : Z
}.

Definition org : Type := @Organism Z Z.
Definition species : Type := @Species Z Z.

(** Draws lie in [[0,1)]: anything else on the tape is read as 0. *)
Definition unitInterval (f : float) : float :=
  if PrimFloat.ltb f 0 then 0%float
  else if PrimFloat.ltb f 1 then f else 0%float.

Definition drawFloat (w : world) : float * world :=
  match floats w with
  | f :: rest =>
      (unitInterval f, {| floats := rest; ints := ints w; nextId := nextId w |})
  | [] => (0%float, w)
  end.

Definition drawInt (n : Z) : M world Z :=
  fun w =>
    if n <=? 0 then Panic External
    else match ints w with
         | i :: rest =>
             Ok (i mod n, {| floats := floats w; ints := rest; nextId := nextId w |})
         | [] => Ok (0, w)
         end.

Definition freshId (w : world) : Z * world :=
  (nextId w, {| floats := floats w; ints := ints w; nextId := nextId w + 1 |}).

Fixpoint sumFitness (orgs : list org) (acc : float) : Result float :=
  match orgs with
  | [] => Ok acc
  | o :: rest =>
      match fitness0 o with
      | Ok f => sumFitness rest (PrimFloat.add acc f)
      | Panic p => Panic p
      end
  end.

Definition primary (o : org) : float :=
  match Fitness o with f :: _ => f | [] => 0%float end.

Fixpoint insertDesc (o : org) (l : list org) : list org :=
  match l with
  | [] => [o]
  | x :: rest =>
      if PrimFloat.ltb (primary x) (primary o) then o :: l
      else x :: insertDesc o rest
  end.

Definition sortDesc (l : list org) : list org :=
  fold_right insertDesc [] l.

Definition aggregate (s : species) : M world species :=
  tf <- pure (sumFitness (Orgs s) 0%float) ;;
  let improved := PrimFloat.ltb (BestFitness s) tf in
  ret {| ID := ID s; Orgs := Orgs s; Age := Age s;
         BestFitness := if improved then tf else BestFitness s;
         BestFitAge := if improved then Age s else BestFitAge s;
         Example := Example s; currFitness := tf |}.

Definition clone (p : option org) (id : Z) : M world org :=
  match p with
  | None => throw NilDereference
  | Some o =>
      ret {| OrgGenome := {| GenomeID := id; Nodes := Nodes (OrgGenome o);
                             Conns := Conns (OrgGenome o) |};
             Fitness := [0%float] |}
  end.

Definition addNode (_ : Settings) (o : org) : M world org :=
  id <- total freshId ;;
  ret {| OrgGenome := {| GenomeID := GenomeID (OrgGenome o);
                         Nodes := id :: Nodes (OrgGenome o);
                         Conns := Conns (OrgGenome o) |};
         Fitness := Fitness o |}.

Definition cross (p1 p2 : option org) : M world org :=
  match p1, p2 with
  | Some a, Some b =>
      id <- total freshId ;;
      ret {| OrgGenome := {| GenomeID := id; Nodes := Nodes (OrgGenome a);
                             Conns := Conns (OrgGenome b) |};
             Fitness := [0%float] |}
  | _, _ => throw NilDereference
  end.

Definition geneGap (_ : Settings) (a : org) (b : option org) : M world float :=
  match b with
  | None => throw NilDereference
  | Some b => ret (float64_of_int (Z.abs (geneCount a - geneCount b)))
  end.

#[export] Instance collaborators : @Externals Z Z world := {|
  random_Next := drawFloat;
  random_Float64 := drawFloat;
  random_Int := drawInt;
  inno_nextID := freshId;
  inno_reset := fun w => w;
  unrepresentable := fun _ => - 2 ^ 63;
  calcFitness := aggregate;
  sortReverse := sortDesc;
  TotalFitness := fun orgs => pure (sumFitness orgs 0%float);
  SpeciesSlice_Organisms := fun _ ss => ret (flat_map Orgs ss);
  cloneOrg := clone;
  mutate := addNode;
  crossover := cross;
  distance := geneGap
|}.

(** An organism with [n] node genes, [c] connection genes and primary
    fitness [f]. *)
Definition mkOrg (id : Z) (n c : nat) (f : float) : org :=
  {| OrgGenome := {| GenomeID := id; Nodes := repeat 0 n; Conns := repeat 0 c |};
     Fitness := [f] |}.

Definition mkSpecies (id : Z) (orgs : list org) (age bestAge : Z)
           (bestFitness : float) : species :=
  {| ID := id; Orgs := orgs; Age := age; BestFitness := bestFitness;
     BestFitAge := bestAge; Example := None; currFitness := 0%float |}.

Definition mkWorld (fs : list float) (zs : list Z) (id : Z) : world :=
  {| floats := fs; ints := zs; nextId := id |}.

(** *** Sample configurations, populations and states *)

Definition config (size : Z) (survival : float) (elite : Z) : Settings :=
  {| PopulationSize := size; SurvivalPercent := survival; EliteCount := elite;
     AgeToStagnation := 5; Crossover := 0.75%float;
     InterspeciesMating := 0%float; CompatThreshold := 3%float |}.

(** The draws to come: fractions that binary64 holds exactly. *)
Definition tape : list float :=
  [0.5; 0.875; 0.25; 0.125; 0.625; 0.5; 0.75; 0.25; 0.375; 0.125;
   0.5; 0.875; 0.25; 0.125; 0.625; 0.5; 0.75; 0.25; 0.375; 0.125;
   0.5; 0.875; 0.25; 0.125; 0.625; 0.5; 0.75; 0.25; 0.375; 0.125]%float.

Definition world0 : world := mkWorld tape [1; 0; 2] 1000.

(** One species of ten organisms with the fitness values 1 to 10. *)
Definition tenOrgs : list org :=
  map (fun i => mkOrg i 3 2 (float64_of_int i)) [1; 2; 3; 4; 5; 6; 7; 8; 9; 10].

Definition popTen : @Population Z Z :=
  {| Generation := 1; PopSpecies := [mkSpecies 100 tenOrgs 0 0 0%float] |}.

(** Two organisms with 5 and 7 genes, in one species. *)
Definition org5 : org := mkOrg 1 3 2 1%float.
Definition org7 : org := mkOrg 2 4 3 2%float.
Definition species57 : species := mkSpecies 100 [org5; org7] 0 0 0%float.
Definition pop57 : @Population Z Z := {| Generation := 1; PopSpecies := [species57] |}.

(** A species of one organism. *)
Definition loneOrg : org := mkOrg 1 3 2 4%float.
Definition loneSpecies : species := mkSpecies 100 [loneOrg] 0 0 0%float.
Definition popLone : @Population Z Z :=
  {| Generation := 1; PopSpecies := [loneSpecies] |}.

(** A pool whose only organism has a negative fitness. *)
Definition debtor : org := mkOrg 1 3 2 (-1)%float.

(** Two species; the first is long past stagnation and owns the fittest
    organism. *)
Definition oldSpecies : species :=
  mkSpecies 7 [mkOrg 1 3 2 2%float; mkOrg 2 3 2 9%float] 20 0 100%float.
Definition youngSpecies : species :=
  mkSpecies 8 [mkOrg 3 3 2 1%float; mkOrg 4 3 2 3%float] 1 0 0%float.
Definition popTwo : @Population Z Z :=
  {| Generation := 4; PopSpecies := [oldSpecies; youngSpecies] |}.

(** A population whose organisms all have fitness zero. *)
Definition popZero : @Population Z Z :=
  {| Generation := 1;
     PopSpecies := [mkSpecies 100 [mkOrg 1 3 2 0%float; mkOrg 2 3 2 0%float] 0 0 0%float] |}.

(** One species of two organisms, 5 and 9 genes, the fitter one the smaller. *)
Definition popApart : @Population Z Z :=
  {| Generation := 1;
     PopSpecies := [mkSpecies 100 [mkOrg 1 3 2 2%float; mkOrg 2 5 4 1%float] 0 0 0%float] |}.

(** The seed collaborators: a seed of three nodes and two connections, refused
    when the elite count is negative; cloning copies the seed under the new
    identifier; a weight assignment marks the connection gene. *)
Definition seedGenome : @Genome Z Z :=
  {| GenomeID := 0; Nodes := [1; 2; 3]; Conns := [10; 20] |}.

(** The error message, from its character codes. *)
Definition seedRefused : String.string :=
  String.string_of_list_ascii
    (map Ascii.ascii_of_nat [115; 101; 101; 100; 32; 114; 101; 102; 117; 115; 101; 100])%nat.

Definition drawGauss (w : world) : float * world :=
  match floats w with
  | f :: rest => (f, {| floats := rest; ints := ints w; nextId := nextId w |})
  | [] => (0%float, w)
  end.

#[export] Instance seeding : @SeedExternals Z Z world := {|
  initialGenome := fun settings =>
    if EliteCount settings <? 0
    then ret (inr seedRefused)
    else ret (inl seedGenome);
  cloneGenome := fun g id =>
    ret {| GenomeID := id; Nodes := Nodes g; Conns := Conns g |};
  random_Gaussian := drawGauss;
  setWeight := fun c _ => c + 1000
|}.

(** Two species whose fittest organisms tie at 9. *)
Definition popTie : list species :=
  [mkSpecies 7 [mkOrg 1 3 2 9%float] 0 0 0%float;
   mkSpecies 8 [mkOrg 2 3 2 9%float; mkOrg 3 3 2 1%float] 0 0 0%float].

(** Three species as the scan leaves them: the first long stagnant, the
    second as stagnant, the third young. *)
Definition scanned (id : Z) (orgs : list org) (age bestAge : Z) (fit : float)
  : species :=
  {| ID := id; Orgs := orgs; Age := age; BestFitness := fit;
     BestFitAge := bestAge; Example := None; currFitness := fit |}.
Definition gateThree : list species :=
  [scanned 7 [mkOrg 1 3 2 2%float] 20 0 2%float;
   scanned 8 [mkOrg 2 3 2 9%float] 30 0 9%float;
   scanned 9 [mkOrg 3 3 2 1%float] 1 1 1%float].

(** Two next-generation species, the examples with 5 and 9 genes, and three
    children with 10, 6 and 20 genes. *)
Definition anchored (id : Z) (ex : org) : species :=
  {| ID := id; Orgs := []; Age := 1; BestFitness := 0%float; BestFitAge := 0;
     Example := Some ex; currFitness := 0%float |}.
Definition anchors : list species :=
  [anchored 7 (mkOrg 1 3 2 0%float); anchored 8 (mkOrg 2 5 4 0%float)].
Definition brood : list org :=
  [mkOrg 11 5 5 0%float; mkOrg 12 3 3 0%float; mkOrg 13 10 10 0%float].

(** Two living species as the gate leaves them, one organism each, with
    aggregated fitness 4 and 6, and the pool of their organisms. *)
Definition survivor (id : Z) (o : org) (fit : float) : species :=
  {| ID := id; Orgs := [o]; Age := 1; BestFitness := fit; BestFitAge := 1;
     Example := Some o; currFitness := fit |}.
Definition eliteA : org := mkOrg 1 3 2 4%float.
Definition eliteB : org := mkOrg 2 3 2 6%float.
Definition livingPair : list species :=
  [survivor 7 eliteA 4%float; survivor 8 eliteB 6%float].
Definition poolPair : list org := [eliteA; eliteB].

End Demo.

(** * Properties *)

(** ** Reasoning about steps *)

Section StepLemmas.

Context {W : Type}.

Lemma bind_Ok {A B} (c : M W A) (k : A -> M W B) w r :
  bind c k w = Ok r -> exists a w1, c w = Ok (a, w1) /\ k a w1 = Ok r.
Proof.
  unfold bind. destruct (c w) as [[a w1]|p]; intro H; [eauto | discriminate].
Qed.

Lemma bind_step {A B} (c : M W A) (k : A -> M W B) w a w1 :
  c w = Ok (a, w1) -> bind c k w = k a w1.
Proof. unfold bind. intros ->. reflexivity. Qed.

Lemma ret_Ok {A} (a : A) (w : W) r : ret a w = Ok r -> r = (a, w).
Proof. unfold ret. congruence. Qed.

Lemma total_Ok {A} (f : W -> A * W) w r : total f w = Ok r -> r = f w.
Proof. unfold total. congruence. Qed.

Lemma pure_Ok {A} (x : Result A) (w : W) r :
  pure x w = Ok r -> x = Ok (fst r) /\ snd r = w.
Proof. unfold pure. destruct x; intro H; inversion H; auto. Qed.

End StepLemmas.

(** Splits a hypothesis saying that a sequence of steps ended normally into
    one hypothesis per step. *)
Ltac step_inv H :=
  lazymatch type of H with
  | bind _ _ _ = Ok _ =>
      let a := fresh "a" in
      let w := fresh "w" in
      let H1 := fresh "Hs" in
      let H2 := fresh "Hk" in
      apply bind_Ok in H; destruct H as (a & w & H1 & H2);
      cbv beta in H2
  | ret _ _ = Ok _ => apply ret_Ok in H
  | total _ _ = Ok _ => apply total_Ok in H
  | throw _ _ = Ok _ => discriminate H
  end.

(** The same for the first step only, with names for the value, the state
    and the step; the rest of the sequence stays in [H]. *)
Tactic Notation "step" hyp(H) "as" simple_intropattern(a) ident(w) ident(Hs) :=
  apply bind_Ok in H; destruct H as (a & w & Hs & H); cbv beta in H.

(** ** The population queries *)

Section QueryProperties.

Context {NodeGene ConnGene : Type}.
Local Abbreviation Organism := (@Organism NodeGene ConnGene).
Local Abbreviation Species := (@Species NodeGene ConnGene).

Lemma mpcLoop_one (s : Species) :
  mpcLoop [s] 0 0 = (fold_left (fun t o => t + geneCount o) (Orgs s) 0, 1).
Proof. reflexivity. Qed.

(** C5, as the code computes it: on one species of two organisms whose gene
    counts are 5 and 7, [MPC] divides the total 12 by the number of species,
    1, and returns 12.0. *)
Theorem MPC_one_species_5_7 (o1 o2 : Organism) (s : Species) (g : Z) :
  Orgs s = [o1; o2] -> geneCount o1 = 5 -> geneCount o2 = 7 ->
  MPC {| Generation := g; PopSpecies := [s] |} = 12%float.
Proof.
  intros Ho H1 H2. unfold MPC. cbn [PopSpecies].
  rewrite mpcLoop_one, Ho. cbn [fold_left]. rewrite H1, H2.
  vm_compute. reflexivity.
Qed.

End QueryProperties.

(** ** Order on [float64] *)

Lemma SFltb_trans (x y z : spec_float) :
  SFltb x y = true -> SFltb y z = true -> SFltb x z = true.
Proof.
  unfold SFltb, SFcompare.
  destruct x as [sx|sx| |sx mx ex], y as [sy|sy| |sy my ey], z as [sz|sz| |sz mz ez];
    try destruct sx; try destruct sy; try destruct sz;
    try discriminate; try reflexivity;
    repeat match goal with
           | |- context [Z.compare ?a ?b] => destruct (Z.compare_spec a b)
           | |- context [Pos.compare_cont Eq ?a ?b] =>
               change (Pos.compare_cont Eq a b) with (Pos.compare a b);
               destruct (Pos.compare_spec a b)
           end;
    cbn; try discriminate; try reflexivity; intros; exfalso; subst; lia.
Qed.

(** [<] on [float64] is transitive (a NaN is below and above nothing). *)
Lemma ltb_trans (x y z : float) :
  PrimFloat.ltb x y = true -> PrimFloat.ltb y z = true -> PrimFloat.ltb x z = true.
Proof. rewrite !ltb_spec. apply SFltb_trans. Qed.

Lemma ltb_irrefl (x : float) : PrimFloat.ltb x x = false.
Proof.
  rewrite ltb_spec. unfold SFltb, SFcompare.
  destruct (Prim2SF x) as [s|s| |s m e]; try destruct s; try reflexivity;
    rewrite Z.compare_refl; change (Pos.compare_cont Eq m m) with (Pos.compare m m);
    rewrite Pos.compare_refl; reflexivity.
Qed.

(** Raising the bound keeps everything that was not above it not above it. *)
Lemma not_above_raise (a b f : float) :
  PrimFloat.ltb a b = true -> PrimFloat.ltb a f = false -> PrimFloat.ltb b f = false.
Proof.
  intros Hab Haf. destruct (PrimFloat.ltb b f) eqn:Hbf; [|reflexivity].
  rewrite (ltb_trans _ _ _ Hab Hbf) in Haf. discriminate.
Qed.

(** [int(f)] is the floor of [f] when [f] is finite, not negative and within
    the range of [int]. *)
Lemma int_of_float64_floor (u : float -> Z) (f : float) (q : Q) :
  float64_value f = Some q -> (0 <= q)%Q -> Qfloor q < 2 ^ 63 ->
  int_of_float64 u f = Qfloor q.
Proof.
  unfold float64_value, int_of_float64.
  destruct (Prim2SF f) as [s|s| |s m e]; try discriminate.
  - intros H _ _. inversion H. reflexivity.
  - intros H Hpos Hrange.
    apply (f_equal (fun o => match o with Some x => x | None => q end)) in H.
    cbv beta iota in H. subst q.
    assert (Hpow : forall k, 0 < 2 ^ k \/ k < 0).
    { intro k. destruct (Z_lt_le_dec k 0); [right; assumption|].
      left. apply Z.pow_pos_nonneg; lia. }
    destruct s.
    + exfalso. destruct (0 <=? e) eqn:He.
      * unfold Qle, Qopp, inject_Z in Hpos. cbn [Qnum Qden] in Hpos.
        destruct (Hpow e) as [Hp|Hn]; [|apply Z.leb_le in He; lia]. nia.
      * unfold Qle, Qopp in Hpos. cbn [Qnum Qden] in Hpos. lia.
    + destruct (0 <=? e) eqn:He.
      * rewrite Qfloor_Z in *.
        assert (0 <= Z.pos m * 2 ^ e).
        { destruct (Hpow e) as [Hp|Hn]; [nia | apply Z.leb_le in He; lia]. }
        replace (- 2 ^ 63 <=? Z.pos m * 2 ^ e) with true
          by (symmetry; apply Z.leb_le; lia).
        replace (Z.pos m * 2 ^ e <? 2 ^ 63) with true
          by (symmetry; apply Z.ltb_lt; lia).
        reflexivity.
      * apply Z.leb_gt in He.
        assert (Hp : 0 < 2 ^ (- e)) by (apply Z.pow_pos_nonneg; lia).
        assert (Hden : Z.pos (Z.to_pos (2 ^ (- e))) = 2 ^ (- e))
          by (apply Z2Pos.id; exact Hp).
        unfold Qfloor in *. rewrite Hden in *.
        assert (0 <= Z.pos m / 2 ^ (- e)) by (apply Z.div_pos; lia).
        replace (- 2 ^ 63 <=? Z.pos m / 2 ^ (- e)) with true
          by (symmetry; apply Z.leb_le; lia).
        replace (Z.pos m / 2 ^ (- e) <? 2 ^ 63) with true
          by (symmetry; apply Z.ltb_lt; lia).
        reflexivity.
Qed.

(** ** Selection *)

Section SelectionProperties.

Context {NodeGene ConnGene W : Type} {E : @Externals NodeGene ConnGene W}.
Local Abbreviation Organism := (@Organism NodeGene ConnGene).

Lemma fitness0_primary (o : Organism) :
  Fitness o <> [] -> fitness0 o = Ok (primaryFitness o).
Proof.
  unfold fitness0, primaryFitness. destruct (Fitness o); [congruence | reflexivity].
Qed.

Lemma tournamentWalk_none (orgs : list Organism) : forall tgt sum,
  (forall o, In o orgs -> Fitness o <> []) ->
  (forall k, (1 <= k <= length orgs)%nat ->
     PrimFloat.leb tgt
       (fold_left (fun acc o => PrimFloat.add acc (primaryFitness o))
                  (firstn k orgs) sum) = false) ->
  tournamentWalk orgs tgt sum = Ok None.
Proof.
  induction orgs as [|o rest IH]; intros tgt sum Hfit Hnever; [reflexivity|].
  cbn [tournamentWalk]. rewrite fitness0_primary by (apply Hfit; left; reflexivity).
  assert (H1 := Hnever 1%nat ltac:(cbn [length]; lia)). cbn in H1. rewrite H1.
  apply IH.
  - intros o' Ho'. apply Hfit. right. exact Ho'.
  - intros k Hk. apply (Hnever (S k)). cbn [length]. lia.
Qed.

(** The walk either names a member of the pool or nothing. *)
Lemma tournamentWalk_member (orgs : list Organism) : forall tgt sum o,
  tournamentWalk orgs tgt sum = Ok (Some o) -> In o orgs.
Proof.
  induction orgs as [|x rest IH]; intros tgt sum o H; cbn [tournamentWalk] in H.
  - discriminate.
  - destruct (fitness0 x) as [f|p]; [|discriminate].
    destruct (PrimFloat.leb tgt (PrimFloat.add sum f)).
    + inversion H. left. reflexivity.
    + right. eapply IH. exact H.
Qed.

Lemma tournament_member (orgs : list Organism) totFit w o w' :
  tournament orgs totFit w = Ok (Some o, w') -> In o orgs.
Proof.
  unfold tournament. intro H. step_inv H. step_inv Hs. subst.
  apply pure_Ok in Hk. destruct Hk as [Hk _]. cbn in Hk.
  eapply tournamentWalk_member. exact Hk.
Qed.

(** C7: over an empty pool, and over a pool whose accumulated fitness never
    reaches the drawn target, [tournament] ends normally with a nil champion:
    no panic, no error. *)
Theorem tournament_degenerate_nil (totFit : float) (w : W) :
  tournament [] totFit w = Ok (None, snd (random_Next w)) /\
  forall orgs : list Organism,
    (forall o, In o orgs -> Fitness o <> []) ->
    (forall k, (1 <= k <= length orgs)%nat ->
       PrimFloat.leb (PrimFloat.mul (fst (random_Next w)) totFit)
                     (prefixFitness orgs k) = false) ->
    tournament orgs totFit w = Ok (None, snd (random_Next w)).
Proof.
  assert (Hgen : forall orgs : list Organism,
    (forall o, In o orgs -> Fitness o <> []) ->
    (forall k, (1 <= k <= length orgs)%nat ->
       PrimFloat.leb (PrimFloat.mul (fst (random_Next w)) totFit)
                     (prefixFitness orgs k) = false) ->
    tournament orgs totFit w = Ok (None, snd (random_Next w))).
  { intros orgs Hfit Hnever. unfold tournament, bind, total, pure.
    destruct (random_Next w) as [r w1] eqn:Hr. cbn [fst snd] in *.
    rewrite (tournamentWalk_none orgs _ _ Hfit Hnever). reflexivity. }
  split; [|exact Hgen].
  apply Hgen; [intros o [] | cbn [length]; intros k Hk; lia].
Qed.

End SelectionProperties.

(** ** The best-species scan *)

Section ScanProperties.

Context {NodeGene ConnGene W : Type} {E : @Externals NodeGene ConnGene W}.
Local Abbreviation Organism := (@Organism NodeGene ConnGene).
Local Abbreviation Species := (@Species NodeGene ConnGene).

Lemma scanOrgs_spec (s : Species) (orgs : list Organism) : forall st st',
  scanOrgs s orgs st = Ok st' ->
  (forall o f, In o orgs -> fitness0 o = Ok f -> PrimFloat.ltb (snd st') f = false) /\
  (forall f, PrimFloat.ltb (snd st) f = false -> PrimFloat.ltb (snd st') f = false) /\
  (st' = st \/
   (fst st' = Some s /\ exists o, In o orgs /\ fitness0 o = Ok (snd st'))).
Proof.
  induction orgs as [|o rest IH]; intros st st' H; cbn [scanOrgs] in H.
  - inversion H; subst. repeat split; auto. intros o f [].
  - destruct (fitness0 o) as [f|p] eqn:Hf; [|discriminate].
    destruct (PrimFloat.ltb (snd st) f) eqn:Hlt.
    + apply IH in H. destruct H as (Hall & Hmono & Hbest). cbn [snd] in Hmono.
      split; [|split].
      * intros o' f' [<-|Hin] Hf'.
        -- rewrite Hf in Hf'. inversion Hf'; subst. apply Hmono, ltb_irrefl.
        -- eapply Hall; eauto.
      * intros g Hg. apply Hmono. eapply not_above_raise; eauto.
      * right. destruct Hbest as [->|(Hb & o' & Hin & Ho')].
        -- split; [reflexivity|]. exists o. split; [left; reflexivity | exact Hf].
        -- split; [exact Hb|]. exists o'. split; [right; exact Hin | exact Ho'].
    + apply IH in H. destruct H as (Hall & Hmono & Hbest).
      split; [|split].
      * intros o' f' [<-|Hin] Hf'.
        -- rewrite Hf in Hf'. inversion Hf'; subst. apply Hmono, Hlt.
        -- eapply Hall; eauto.
      * exact Hmono.
      * destruct Hbest as [->|(Hb & o' & Hin & Ho')]; [left; reflexivity|].
        right. split; [exact Hb|]. exists o'. split; [right; exact Hin | exact Ho'].
Qed.

(** Organisms that are not above the running best leave the state as it is. *)
Lemma scanOrgs_unchanged (s : Species) (orgs : list Organism) : forall st st',
  scanOrgs s orgs st = Ok st' ->
  (forall o f, In o orgs -> fitness0 o = Ok f -> PrimFloat.ltb (snd st) f = false) ->
  st' = st.
Proof.
  induction orgs as [|o rest IH]; intros st st' H Hlow; cbn [scanOrgs] in H.
  - inversion H. reflexivity.
  - destruct (fitness0 o) as [f|p] eqn:Hf; [|discriminate].
    rewrite (Hlow o f (or_introl eq_refl) Hf) in H.
    apply IH; [exact H|]. intros o' f' Hin. apply Hlow. right. exact Hin.
Qed.

Lemma scanSpecies_spec (ss : list Species) : forall st w ss' st' w',
  scanSpecies ss st w = Ok (ss', st', w') ->
  length ss' = length ss /\
  noneAbove ss' (snd st') /\
  (forall f, PrimFloat.ltb (snd st) f = false -> PrimFloat.ltb (snd st') f = false) /\
  (st' = st \/
   exists b, fst st' = Some b /\ In b ss' /\
             exists o, In o (Orgs b) /\ fitness0 o = Ok (snd st')).
Proof.
  induction ss as [|s rest IH]; intros st w ss' st' w' H; cbn [scanSpecies] in H.
  - step_inv H. inversion H; subst.
    repeat split; auto. intros s o f [].
  - step_inv H. rename a into s1. step_inv Hk. rename a into st1.
    apply pure_Ok in Hs0. cbn [fst snd] in Hs0. destruct Hs0 as [Hscan ->].
    step_inv Hk0. destruct a as [rest' st2]. step_inv Hk. inversion Hk; subst.
    apply IH in Hs0. destruct Hs0 as (Hlen & Hnone & Hmono & Hbest).
    apply scanOrgs_spec in Hscan. destruct Hscan as (Hall1 & Hmono1 & Hbest1).
    split; [cbn [length]; congruence|]. split; [|split].
    + intros x o f [<-|Hin] Ho Hf.
      * apply Hmono. eapply Hall1; eauto.
      * eapply Hnone; eauto.
    + intros f Hf. apply Hmono, Hmono1, Hf.
    + destruct Hbest as [->|(b & Hb & Hin & o & Ho & Hf)].
      * destruct Hbest1 as [->|(Hb & o & Ho & Hf)]; [left; reflexivity|].
        right. exists s1. split; [exact Hb|]. split; [left; reflexivity|].
        exists o. split; assumption.
      * right. exists b. split; [exact Hb|]. split; [right; exact Hin|].
        exists o. split; assumption.
Qed.

Lemma scanSpecies_unchanged (ss : list Species) : forall st w ss' st' w',
  scanSpecies ss st w = Ok (ss', st', w') ->
  noneAbove ss' (snd st) -> st' = st.
Proof.
  induction ss as [|s rest IH]; intros st w ss' st' w' H Hlow; cbn [scanSpecies] in H.
  - step_inv H. inversion H; subst. reflexivity.
  - step_inv H. rename a into s1. step_inv Hk. rename a into st1.
    apply pure_Ok in Hs0. cbn [fst snd] in Hs0. destruct Hs0 as [Hscan ->].
    step_inv Hk0. destruct a as [rest' st2]. step_inv Hk. inversion Hk; subst.
    assert (st1 = st) as ->.
    { eapply scanOrgs_unchanged; [exact Hscan|].
      intros o f Ho Hf. eapply (Hlow s1); eauto. left. reflexivity. }
    eapply IH; [exact Hs0|].
    intros x o f Hin. apply (Hlow x o f). right. exact Hin.
Qed.

End ScanProperties.

(** ** The survival gate and culling *)

Section GateProperties.

Context {NodeGene ConnGene W : Type} {E : @Externals NodeGene ConnGene W}.
Local Abbreviation Organism := (@Organism NodeGene ConnGene).
Local Abbreviation Species := (@Species NodeGene ConnGene).

(** What a completed culling of one species leaves in place. *)
Lemma cullSpecies_spec (settings : Settings) (x s : Species) tf w w' :
  cullSpecies settings x w = Ok (s, tf, w') ->
  let keep := keepCount settings (Z.of_nat (length (sortReverse (Orgs x)))) in
  1 <= keep /\
  Orgs s = firstn (Z.to_nat keep) (sortReverse (Orgs x)) /\
  ID s = ID x /\ Age s = Age x /\ BestFitAge s = BestFitAge x /\
  BestFitness s = BestFitness x /\ currFitness s = currFitness x /\
  exists ex, Example s = Some ex /\ In ex (Orgs s).
Proof.
  intros H keep. unfold cullSpecies in H. cbv zeta in H. fold keep in H.
  destruct (keep <? 0) eqn:Hneg; [discriminate H|].
  step_inv H. step_inv Hk. rename a0 into i.
  destruct (i <? 0) eqn:Hi; [discriminate Hk0|].
  destruct (nth_error (firstn (Z.to_nat keep) (sortReverse (Orgs x))) (Z.to_nat i))
    as [ex|] eqn:Hnth; [|discriminate Hk0].
  step_inv Hk0. inversion Hk0; subst. cbn.
  assert (Hin := nth_error_In _ _ Hnth).
  split.
  - destruct (Z.to_nat keep) eqn:Hz; [destruct Hin | lia].
  - repeat split; auto. exists ex. split; [reflexivity | exact Hin].
Qed.

(** A culling that would retain nothing does not complete. *)
Lemma cullSpecies_keep_zero (settings : Settings) (x : Species) w :
  keepCount settings (Z.of_nat (length (sortReverse (Orgs x)))) <= 0 ->
  exists p, cullSpecies settings x w = Panic p.
Proof.
  intro Hk.
  destruct (cullSpecies settings x w) as [[[s tf] w']|p] eqn:H; [|eauto].
  apply cullSpecies_spec in H. cbv zeta in H. lia.
Qed.

Lemma survives_self (settings : Settings) (b : Species) : survives settings b b = true.
Proof. unfold survives. rewrite Z.eqb_refl. reflexivity. Qed.

(** The species in [living] after the gate are those that were there before
    and, culled, exactly those of the list that pass the gate. *)
Lemma cullLoop_spec (settings : Settings) (b : Species) (ss : list Species) :
  forall cs0 w cs w',
  cullLoop settings (Some b) ss cs0 w = Ok (cs, w') ->
  (forall s, In s (living cs0) -> In s (living cs)) /\
  (forall x, In x ss -> survives settings b x = true ->
     exists s tf wa wb, cullSpecies settings x wa = Ok (s, tf, wb) /\ In s (living cs)) /\
  (forall s, In s (living cs) ->
     In s (living cs0) \/
     exists x tf wa wb, In x ss /\ survives settings b x = true /\
                        cullSpecies settings x wa = Ok (s, tf, wb)).
Proof.
  induction ss as [|x rest IH]; intros cs0 w cs w' H; cbn [cullLoop] in H.
  - step_inv H. inversion H; subst. repeat split; auto. intros x [].
  - destruct (survives settings b x) eqn:Hgate.
    + step_inv H. destruct a as [s1 tf1]. rename Hs into Hcull1. apply IH in Hk.
      cbn [living] in Hk. destruct Hk as (Hkeep & Hnew & Hall).
      split; [|split].
      * intros s Hs. apply Hkeep, in_or_app. left. exact Hs.
      * intros y [<-|Hy] Hy'.
        -- exists s1, tf1, w, w0. split; [exact Hcull1|].
           apply Hkeep, in_or_app. right. left. reflexivity.
        -- destruct (Hnew y Hy Hy') as (s & tf & wa & wb & Hc & Hin).
           exists s, tf, wa, wb. split; assumption.
      * intros s Hs. destruct (Hall s Hs) as [Hold|(y & tf & wa & wb & Hy & Hg & Hc)].
        -- apply in_app_or in Hold. destruct Hold as [Hold|[<-|[]]]; [left; exact Hold|].
           right. exists x, tf1, w, w0. split; [left; reflexivity|]. split; assumption.
        -- right. exists y, tf, wa, wb. split; [right; exact Hy|]. split; assumption.
    + apply IH in H. destruct H as (Hkeep & Hnew & Hall).
      split; [exact Hkeep|]. split.
      * intros y [<-|Hy] Hy'; [congruence|]. apply Hnew; assumption.
      * intros s Hs. destruct (Hall s Hs) as [Hold|(y & tf & wa & wb & Hy & Hg & Hc)];
          [left; exact Hold|].
        right. exists y, tf, wa, wb. split; [right; exact Hy|]. split; assumption.
Qed.

(** C3, at the input on which it fails: with a survival fraction of one half
    and no elite, a surviving species of one organism (sorting keeps the
    length) has a keep-count of 0, not 1, and its culling does not complete
    (the example is drawn from an empty slice). *)
Theorem cull_singleton_keeps_none (settings : Settings) (x : Species) (w : W) :
  SurvivalPercent settings = 0.5%float ->
  EliteCount settings = 0 ->
  length (Orgs x) = 1%nat ->
  length (sortReverse (Orgs x)) = length (Orgs x) ->
  keepCount settings (Z.of_nat (length (sortReverse (Orgs x)))) = 0 /\
  exists p, cullSpecies settings x w = Panic p.
Proof.
  intros Hsp Hel Hone Hlen. rewrite Hone in Hlen.
  assert (Hk : keepCount settings (Z.of_nat (length (sortReverse (Orgs x)))) = 0).
  { rewrite Hlen. unfold keepCount. rewrite Hsp, Hel.
    replace (int_of_float64 unrepresentable
               (PrimFloat.mul 0.5 (float64_of_int (Z.of_nat 1)))) with 0
      by (vm_compute; reflexivity).
    reflexivity. }
  split; [exact Hk|]. apply cullSpecies_keep_zero. lia.
Qed.

(** C4: the species the scan designates owns an organism that no organism of
    the population exceeds in primary fitness, and the gate lets it through
    into [living], culled, whatever its [Age] and [BestFitAge] are. *)
Theorem protected_species_survives (settings : Settings) (ss species1 : list Species)
        (b : Species) (bestFit : float) (cs0 cs : cullState) (w w1 w2 : W) :
  scanSpecies ss (None, 0%float) w = Ok (species1, (Some b, bestFit), w1) ->
  cullLoop settings (Some b) species1 cs0 w1 = Ok (cs, w2) ->
  (In b species1 /\
   (exists o, In o (Orgs b) /\ fitness0 o = Ok bestFit) /\
   noneAbove species1 bestFit) /\
  exists s tf wa wb,
    cullSpecies settings b wa = Ok (s, tf, wb) /\ In s (living cs) /\
    ID s = ID b /\ Age s = Age b /\ BestFitAge s = BestFitAge b.
Proof.
  intros Hscan Hcull.
  apply scanSpecies_spec in Hscan. cbn [fst snd] in Hscan.
  destruct Hscan as (_ & Hnone & _ & [Heq|(b' & Hb' & Hin & o & Ho & Hf)]);
    [discriminate Heq|].
  inversion Hb'; subst b'.
  split; [split; [exact Hin | split; [eauto | exact Hnone]]|].
  apply cullLoop_spec in Hcull. destruct Hcull as (_ & Hnew & _).
  destruct (Hnew b Hin (survives_self settings b)) as (s & tf & wa & wb & Hc & Hs).
  exists s, tf, wa, wb. split; [exact Hc|]. split; [exact Hs|].
  apply cullSpecies_spec in Hc. cbv zeta in Hc. tauto.
Qed.

(** C10: the scan leaves [bestSpecies] nil exactly when no organism it reads
    has a primary fitness above zero, and then the step panics on the nil
    dereference in the gate. *)
Theorem rollPop_without_positive_fitness (settings : Settings)
        (population : @Population NodeGene ConnGene)
        (species1 : list Species) (st : bestState) (w w1 : W) :
  PopSpecies population <> [] ->
  scanSpecies (PopSpecies population) (None, 0%float) w = Ok (species1, st, w1) ->
  (noneAbove species1 0%float <-> fst st = None) /\
  (noneAbove species1 0%float ->
   rollPop settings population w = Panic NilDereference).
Proof.
  intros Hne Hscan.
  assert (Hnil : noneAbove species1 0%float -> st = (None, 0%float)).
  { intro Hlow. eapply scanSpecies_unchanged; [exact Hscan | exact Hlow]. }
  assert (Hspec := scanSpecies_spec _ _ _ _ _ _ Hscan). cbn [fst snd] in Hspec.
  destruct Hspec as (Hlen & Hnone & _ & Hbest).
  split; [split|].
  - intro Hlow. rewrite (Hnil Hlow). reflexivity.
  - intro Hst. destruct Hbest as [->|(b & Hb & _)]; [exact Hnone | congruence].
  - intro Hlow. rewrite (Hnil Hlow) in Hscan.
    unfold rollPop. rewrite (bind_step _ _ _ _ _ Hscan). cbn [fst].
    destruct species1 as [|s rest].
    + destruct (PopSpecies population); [congruence | discriminate Hlen].
    + reflexivity.
Qed.

End GateProperties.

(** ** Reproduction *)

Section ReproductionProperties.

Context {NodeGene ConnGene W : Type} {E : @Externals NodeGene ConnGene W}.
Local Abbreviation Organism := (@Organism NodeGene ConnGene).
Local Abbreviation Species := (@Species NodeGene ConnGene).

(** A slot of the offspring loop appends one organism or none. *)
Lemma offspringSlot_appends (settings : Settings) (currS : Species) orgFit
      popOrgs totPop (children c' : list Organism) w w' :
  offspringSlot settings currS orgFit popOrgs totPop children w = Ok (c', w') ->
  c' = children \/ exists child, c' = children ++ [child].
Proof.
  unfold offspringSlot. intro H. step H as r w1 Hr.
  destruct (PrimFloat.ltb r (InterspeciesMating settings)).
  - step_inv H. inversion H. left. reflexivity.
  - right. step H as p1 w2 Hp1. step H as mo w3 Hmo. destruct mo.
    + step H as id w4 Hid. step H as c w5 Hc. step H as c1 w6 Hc1.
      step_inv H. inversion H. eauto.
    + step H as r3 w4 Hr3. step H as p2 w5 Hp2. step H as c w6 Hc.
      step H as c1 w7 Hc1. step_inv H. inversion H. eauto.
Qed.

Lemma offspringSlot_always_appends (settings : Settings) (currS : Species) orgFit
      popOrgs totPop (children c' : list Organism) w w' :
  (forall w0, PrimFloat.ltb (fst (random_Float64 w0)) (InterspeciesMating settings) = false) ->
  offspringSlot settings currS orgFit popOrgs totPop children w = Ok (c', w') ->
  exists child, c' = children ++ [child].
Proof.
  intros Hno. unfold offspringSlot. intro H. step H as r w1 Hr.
  apply total_Ok in Hr. assert (Ha := Hno w). rewrite <- Hr in Ha. cbn [fst] in Ha.
  rewrite Ha in H.
  step H as p1 w2 Hp1. step H as mo w3 Hmo. destruct mo.
  + step H as id w4 Hid. step H as c w5 Hc. step H as c1 w6 Hc1.
    step_inv H. inversion H. eauto.
  + step H as r3 w4 Hr3. step H as p2 w5 Hp2. step H as c w6 Hc.
    step H as c1 w7 Hc1. step_inv H. inversion H. eauto.
Qed.

Lemma offspringLoop_appends (n : nat) (settings : Settings) (currS : Species) orgFit
      popOrgs totPop : forall (children c' : list Organism) w w',
  offspringLoop n settings currS orgFit popOrgs totPop children w = Ok (c', w') ->
  exists extra, c' = children ++ extra /\ (length extra <= n)%nat /\
    ((forall w0, PrimFloat.ltb (fst (random_Float64 w0))
                               (InterspeciesMating settings) = false) ->
     length extra = n).
Proof.
  induction n as [|n IH]; intros children c' w w' H; cbn [offspringLoop] in H.
  - step_inv H. inversion H. exists []. rewrite app_nil_r. auto.
  - step H as c1 w1 Hslot. apply IH in H. destruct H as (extra & -> & Hlen & Hex).
    destruct (offspringSlot_appends _ _ _ _ _ _ _ _ _ Hslot) as [->|[child ->]].
    + exists extra. split; [reflexivity|]. split; [lia|].
      intro Hno. destruct (offspringSlot_always_appends _ _ _ _ _ _ _ _ _ Hno Hslot)
        as [child Hc].
      apply (f_equal (@length _)) in Hc. rewrite length_app in Hc. cbn in Hc. lia.
    + exists (child :: extra). rewrite <- app_assoc. split; [reflexivity|].
      cbn [length]. split; [lia|]. intro Hno. rewrite (Hex Hno). reflexivity.
Qed.

Lemma topUp_appends (n : nat) (settings : Settings) popOrgs totPop :
  forall (children c' : list Organism) w w',
  topUp n settings popOrgs totPop children w = Ok (c', w') ->
  exists extra, c' = children ++ extra /\ length extra = n.
Proof.
  induction n as [|n IH]; intros children c' w w' H; cbn [topUp] in H.
  - step_inv H. inversion H. exists []. rewrite app_nil_r. auto.
  - step H as p1 w1 Hp1. step H as p2 w2 Hp2. step H as c w3 Hc.
    step H as c1 w4 Hc1. apply IH in H. destruct H as (extra & -> & Hlen).
    exists (c1 :: extra). rewrite <- app_assoc. cbn. auto.
Qed.

(** Ensuring the count leaves exactly [PopulationSize] children: a prefix of
    the list when it was longer, the list topped up otherwise. *)
Lemma ensureCount_spec (settings : Settings) popOrgs totPop
      (children c' : list Organism) w w' :
  ensureCount settings popOrgs totPop children w = Ok (c', w') ->
  Z.of_nat (length c') = PopulationSize settings /\
  (c' = firstn (Z.to_nat (PopulationSize settings)) children \/
   exists extra, c' = children ++ extra).
Proof.
  unfold ensureCount. intro H.
  destruct (Z.of_nat (length children) >? PopulationSize settings) eqn:Hgt.
  - destruct (PopulationSize settings <? 0) eqn:Hneg; [discriminate H|].
    step_inv H. inversion H; subst. split; [|left; reflexivity].
    rewrite length_firstn. lia.
  - apply topUp_appends in H. destruct H as (extra & -> & Hlen).
    split; [|right; eauto]. rewrite length_app, Hlen. lia.
Qed.

(** What the loop body does before the count is ensured. *)
Lemma breed_spec (settings : Settings) totAdj popOrgs totPop (currS nextS : Species)
      (children c' : list Organism) w w' :
  breed settings totAdj popOrgs totPop currS children w = Ok (nextS, c', w') ->
  0 <= budget settings totAdj currS /\
  ID nextS = ID currS /\ Orgs nextS = [] /\ Example nextS = Example currS /\
  exists extra,
    c' = children ++ elites settings currS ++ extra /\
    Z.of_nat (length extra) <=
      Z.max 0 (budget settings totAdj currS
               - Z.of_nat (length (elites settings currS))) /\
    ((forall w0, PrimFloat.ltb (fst (random_Float64 w0))
                               (InterspeciesMating settings) = false) ->
     Z.of_nat (length extra) =
       Z.max 0 (budget settings totAdj currS
                - Z.of_nat (length (elites settings currS)))).
Proof.
  unfold breed. intro H. cbv zeta in H.
  destruct (budget settings totAdj currS <? 0) eqn:Hneg; [discriminate H|].
  step H as orgFit w1 Hfit. step H as c1 w2 Hloop. step_inv H. inversion H; subst. cbn.
  apply offspringLoop_appends in Hloop. destruct Hloop as (extra & -> & Hlen & Hex).
  split; [lia|]. repeat split; auto.
  exists extra. rewrite <- app_assoc. split; [reflexivity|]. split; [lia|].
  intro Hno. rewrite (Hex Hno). lia.
Qed.

Lemma reproduceSpecies_spec (settings : Settings) totAdj popOrgs totPop
      (currS : Species) (ns ns' : list Species) (children c' : list Organism) w w' :
  reproduceSpecies settings totAdj popOrgs totPop currS (ns, children) w
    = Ok (ns', c', w') ->
  Z.of_nat (length c') = PopulationSize settings /\
  (exists nextS, ns' = ns ++ [nextS] /\ ID nextS = ID currS /\ Orgs nextS = [] /\
                 Example nextS = Example currS) /\
  exists extra,
    c' = firstn (Z.to_nat (PopulationSize settings))
                (children ++ elites settings currS ++ extra).
Proof.
  unfold reproduceSpecies. intro H. cbn [fst snd] in H.
  step H as [nextS c1] w1 Hbreed. step H as c2 w2 Hens. step_inv H.
  inversion H; subst.
  apply breed_spec in Hbreed. destruct Hbreed as (_ & Hid & Horgs & Hex & extra & -> & _).
  apply ensureCount_spec in Hens. destruct Hens as (Hlen & Hshape).
  split; [exact Hlen|]. split; [eauto 6|].
  destruct Hshape as [->|(more & ->)]; [eauto|].
  exists (extra ++ more).
  replace (children ++ elites settings currS ++ extra ++ more)
    with ((children ++ elites settings currS ++ extra) ++ more)
    by (rewrite <- !app_assoc; reflexivity).
  rewrite firstn_all2; [reflexivity|]. lia.
Qed.

(** Once the list holds [PopulationSize] children, a pass of the loop gives the
    same list back: whatever the species adds is cut away again. *)
Lemma reproduceSpecies_full (settings : Settings) totAdj popOrgs totPop
      (currS : Species) (ns ns' : list Species) (children c' : list Organism) w w' :
  Z.of_nat (length children) = PopulationSize settings ->
  reproduceSpecies settings totAdj popOrgs totPop currS (ns, children) w
    = Ok (ns', c', w') ->
  c' = children.
Proof.
  intros Hfull H. apply reproduceSpecies_spec in H.
  destruct H as (_ & _ & extra & ->).
  rewrite <- Hfull, Nat2Z.id.
  rewrite firstn_app, firstn_all, Nat.sub_diag. cbn. apply app_nil_r.
Qed.

Lemma reproduceLoop_full (settings : Settings) totAdj popOrgs totPop
      (livingS : list Species) : forall ns ns' (children c' : list Organism) w w',
  Z.of_nat (length children) = PopulationSize settings ->
  reproduceLoop settings totAdj popOrgs totPop livingS (ns, children) w
    = Ok (ns', c', w') ->
  c' = children.
Proof.
  induction livingS as [|s rest IH]; intros ns ns' children c' w w' Hfull H;
    cbn [reproduceLoop] in H.
  - step_inv H. inversion H. reflexivity.
  - step H as [ns1 c1] w1 Hfirst.
    assert (c1 = children) as -> by (eapply reproduceSpecies_full; eauto).
    eapply IH; eauto.
Qed.

(** The next generation's copies made by the loop: one per living species,
    in order, without organisms. *)
Lemma reproduceLoop_species (settings : Settings) totAdj popOrgs totPop
      (livingS : list Species) : forall ns ns' (children c' : list Organism) w w',
  reproduceLoop settings totAdj popOrgs totPop livingS (ns, children) w
    = Ok (ns', c', w') ->
  exists copies, ns' = ns ++ copies /\
    map ID copies = map ID livingS /\
    map Example copies = map Example livingS /\
    Forall (fun s => Orgs s = []) copies.
Proof.
  induction livingS as [|s rest IH]; intros ns ns' children c' w w' H;
    cbn [reproduceLoop] in H.
  - step_inv H. inversion H. exists []. rewrite app_nil_r. auto.
  - step H as [ns1 c1] w1 Hfirst.
    apply reproduceSpecies_spec in Hfirst.
    destruct Hfirst as (_ & (nextS & -> & Hid & Horgs & Hex) & _).
    apply IH in H. destruct H as (copies & -> & Hids & Hexs & Hempty).
    exists (nextS :: copies). rewrite <- app_assoc. cbn.
    split; [reflexivity|]. split; [congruence|]. split; [congruence|].
    constructor; assumption.
Qed.

(** The loop over one species or more ends with the children of its first
    pass. *)
Lemma reproduceLoop_first_pass (settings : Settings) totAdj popOrgs totPop
      (s1 : Species) (rest ns ns' : list Species) (children c' : list Organism)
      (w w' : W) :
  reproduceLoop settings totAdj popOrgs totPop (s1 :: rest) (ns, children) w
    = Ok (ns', c', w') ->
  Z.of_nat (length c') = PopulationSize settings /\
  exists ns1 w1,
    reproduceSpecies settings totAdj popOrgs totPop s1 (ns, children) w
      = Ok (ns1, c', w1).
Proof.
  intro H. cbn [reproduceLoop] in H. step H as [ns1 c1] w1 Hfirst.
  assert (Hlen : Z.of_nat (length c1) = PopulationSize settings).
  { apply reproduceSpecies_spec in Hfirst. tauto. }
  assert (c' = c1) as -> by (eapply reproduceLoop_full; eauto).
  split; [exact Hlen|]. eauto.
Qed.

(** C2, as the code has it: the count is ensured at the end of every pass of
    the per-species loop, not once after it.  The children that leave the
    loop are the children as the first pass left them, already
    [PopulationSize] in number, and a pass that starts with that many gives
    them back unchanged: what every later species adds is cut away again. *)
Theorem count_ensured_inside_loop (settings : Settings) totAdj popOrgs totPop
        (s1 : Species) (rest ns ns' : list Species) (children c' : list Organism)
        (w w' : W) :
  reproduceLoop settings totAdj popOrgs totPop (s1 :: rest) (ns, children) w
    = Ok (ns', c', w') ->
  Z.of_nat (length c') = PopulationSize settings /\
  (exists ns1 w1,
     reproduceSpecies settings totAdj popOrgs totPop s1 (ns, children) w
       = Ok (ns1, c', w1)) /\
  (forall s2 ns2 ns3 c2 w2 w3,
     reproduceSpecies settings totAdj popOrgs totPop s2 (ns2, c') w2
       = Ok (ns3, c2, w3) -> c2 = c').
Proof.
  intro H. apply reproduceLoop_first_pass in H. destruct H as (Hlen & Hfirst).
  split; [exact Hlen|]. split; [exact Hfirst|].
  intros s2 ns2 ns3 c2 w2 w3 Hpass. eapply reproduceSpecies_full; eauto.
Qed.

(** The total of [currFitness] over the survivors, as the gate accumulates it. *)
Lemma cullLoop_adjFit (settings : Settings) (best : option Species)
      (ss : list Species) : forall cs0 w cs w',
  cullLoop settings best ss cs0 w = Ok (cs, w') ->
  exists added, living cs = living cs0 ++ added /\
    adjFit cs = fold_left (fun a s => PrimFloat.add a (currFitness s)) added (adjFit cs0).
Proof.
  induction ss as [|x rest IH]; intros cs0 w cs w' H; cbn [cullLoop] in H.
  - step_inv H. inversion H. exists []. rewrite app_nil_r. auto.
  - destruct best as [b|]; [|discriminate H].
    destruct (survives settings b x).
    + step H as [s1 tf1] w1 Hcull. apply IH in H. cbn [living adjFit] in H.
      destruct H as (added & -> & ->).
      exists (s1 :: added). rewrite <- app_assoc. split; [reflexivity|].
      cbn [fold_left]. apply cullSpecies_spec in Hcull. cbv zeta in Hcull.
      destruct Hcull as (_ & _ & _ & _ & _ & _ & -> & _). reflexivity.
    + apply IH in H. exact H.
Qed.

(** C8: the budget of a living species is the floor of the [float64] value of
    [currFitness / adjFit * float64(PopulationSize)] (when that value is
    finite, not negative and an [int]), [adjFit] being the sum of
    [currFitness] over the living species; the elite copied for the species,
    [min(EliteCount, len(Orgs))] organisms, comes off it before the offspring
    loop, which appends at most what is left (exactly that when no slot is
    skipped). *)
Theorem budget_less_elites (settings : Settings) (best : option Species)
        (ss : list Species) (cs : cullState) popOrgs (currS nextS : Species)
        (children c' : list Organism) (w0 w1 w w' : W) :
  cullLoop settings best ss
           {| living := []; adjFit := 0%float; popFit := 0%float |} w0 = Ok (cs, w1) ->
  breed settings (adjFit cs) popOrgs (popFit cs) currS children w = Ok (nextS, c', w') ->
  adjFit cs = fold_left (fun a s => PrimFloat.add a (currFitness s)) (living cs) 0%float /\
  (forall q,
     float64_value
       (PrimFloat.mul (PrimFloat.div (currFitness currS) (adjFit cs))
                      (float64_of_int (PopulationSize settings))) = Some q ->
     (0 <= q)%Q -> Qfloor q < 2 ^ 63 ->
     budget settings (adjFit cs) currS = Qfloor q) /\
  length (elites settings currS)
    = Nat.min (Z.to_nat (EliteCount settings)) (length (Orgs currS)) /\
  exists offspring,
    c' = children ++ elites settings currS ++ offspring /\
    Z.of_nat (length offspring) <=
      Z.max 0 (budget settings (adjFit cs) currS
               - Z.of_nat (length (elites settings currS))) /\
    ((forall w2, PrimFloat.ltb (fst (random_Float64 w2))
                               (InterspeciesMating settings) = false) ->
     Z.of_nat (length offspring) =
       Z.max 0 (budget settings (adjFit cs) currS
                - Z.of_nat (length (elites settings currS)))).
Proof.
  intros Hcull Hbreed.
  apply cullLoop_adjFit in Hcull. cbn [living adjFit app] in Hcull.
  destruct Hcull as (added & Hliv & Hadj). rewrite Hliv.
  split; [exact Hadj|].
  split; [intros q Hq Hpos Hrange; apply int_of_float64_floor; assumption|].
  split; [apply length_firstn|].
  apply breed_spec in Hbreed. tauto.
Qed.





End ReproductionProperties.

(** ** Speciation and the whole step *)

Section StepProperties.

Context {NodeGene ConnGene W : Type} {E : @Externals NodeGene ConnGene W}.
Local Abbreviation Organism := (@Organism NodeGene ConnGene).
Local Abbreviation Species := (@Species NodeGene ConnGene).

Lemma placedIn_appendOrg (settings : Settings) (c x : Organism) (s : Species) :
  placedIn settings c s -> placedIn settings c (appendOrg s x).
Proof.
  intros [Hin Hwhy]. split; [cbn; apply in_or_app; left; exact Hin | exact Hwhy].
Qed.

Lemma organismCount_appendOrg (pre post : list Species) (s : Species) (c : Organism) :
  organismCount (pre ++ appendOrg s c :: post) = S (organismCount (pre ++ s :: post)).
Proof.
  unfold organismCount. rewrite !flat_map_app. cbn [flat_map appendOrg Orgs].
  rewrite !length_app. cbn [length]. lia.
Qed.

(** The inner loop of [speciate] appends the child to one species, the first
    one found close enough, and changes nothing else. *)
Lemma place_spec (settings : Settings) (child : Organism) (ss : list Species) :
  forall w r w',
  place settings child ss w = Ok (r, w') ->
  match r with
  | None => True
  | Some ss' =>
      exists pre s post,
        ss = pre ++ s :: post /\ ss' = pre ++ appendOrg s child :: post /\
        placedIn settings child (appendOrg s child)
  end.
Proof.
  induction ss as [|s rest IH]; intros w r w' H; cbn [place] in H.
  - step_inv H. inversion H. exact I.
  - step H as d w1 Hd.
    destruct (PrimFloat.ltb d (CompatThreshold settings)) eqn:Hclose.
    + step_inv H. inversion H; subst. exists [], s, rest.
      split; [reflexivity|]. split; [reflexivity|]. split.
      * cbn. apply in_or_app. right. left. reflexivity.
      * right. exists w, d. eexists. split; eassumption.
    + step H as r1 w2 Hrest. step_inv H. inversion H; subst.
      apply IH in Hrest. destruct r1 as [ss1|]; [|exact I]. cbn [option_map].
      destruct Hrest as (pre & s0 & post & -> & -> & Hp).
      exists (s :: pre), s0, post. auto.
Qed.

Lemma speciate_spec (settings : Settings) (children : list Organism) :
  forall ss w ss' w',
  speciate settings children ss w = Ok (ss', w') ->
  organismCount ss' = (organismCount ss + length children)%nat /\
  (forall c, (exists s, In s ss /\ placedIn settings c s) ->
             exists s', In s' ss' /\ placedIn settings c s') /\
  (forall c, In c children -> exists s', In s' ss' /\ placedIn settings c s').
Proof.
  induction children as [|child rest IH]; intros ss w ss' w' H; cbn [speciate] in H.
  - step_inv H. inversion H; subst. cbn [length]. split; [lia|].
    split; [auto | intros c []].
  - step H as r w1 Hplace. apply place_spec in Hplace. destruct r as [ss1|].
    + destruct Hplace as (pre & s & post & -> & -> & Hp).
      apply IH in H. destruct H as (Hcount & Hkeep & Hnew).
      rewrite organismCount_appendOrg in Hcount.
      assert (Hkeep1 : forall c,
                 (exists s0, In s0 (pre ++ s :: post) /\ placedIn settings c s0) ->
                 exists s', In s' ss' /\ placedIn settings c s').
      { intros c (s0 & Hin & Hc). apply Hkeep.
        apply in_app_or in Hin. destruct Hin as [Hin|[<-|Hin]].
        - exists s0. split; [apply in_or_app; left; exact Hin | exact Hc].
        - exists (appendOrg s child).
          split; [apply in_or_app; right; left; reflexivity|].
          apply placedIn_appendOrg. exact Hc.
        - exists s0. split; [apply in_or_app; right; right; exact Hin | exact Hc]. }
      split; [cbn [length]; lia|]. split; [exact Hkeep1|].
      intros c [<-|Hc]; [|apply Hnew; exact Hc].
      apply Hkeep. exists (appendOrg s child).
      split; [apply in_or_app; right; left; reflexivity | exact Hp].
    + step H as id w2 Hid. apply IH in H. destruct H as (Hcount & Hkeep & Hnew).
      unfold organismCount in Hcount. rewrite flat_map_app, length_app in Hcount.
      cbn in Hcount.
      split; [unfold organismCount; cbn [length]; lia|]. split.
      * intros c (s0 & Hin & Hc). apply Hkeep. exists s0.
        split; [apply in_or_app; left; exact Hin | exact Hc].
      * intros c [<-|Hc]; [|apply Hnew; exact Hc].
        apply Hkeep. eexists. split; [apply in_or_app; right; left; reflexivity|].
        split; [left; reflexivity | left; reflexivity].
Qed.

(** Pruning removes species without organisms, so no organism. *)
Lemma flat_map_prune (ss : list Species) :
  flat_map Orgs (prune ss) = flat_map Orgs ss.
Proof.
  induction ss as [|s rest IH]; [reflexivity|]. cbn [prune filter flat_map].
  destruct (Orgs s) as [|o l] eqn:Ho; cbn [length Z.of_nat Z.ltb Z.compare].
  - exact IH.
  - cbn [flat_map]. rewrite Ho. f_equal. exact IH.
Qed.


(** The phases of a step that ends normally. *)
Lemma rollPop_phases (settings : Settings) (population : @Population NodeGene ConnGene)
      (nextPop : @Population NodeGene ConnGene) (w w' : W) :
  rollPop settings population w = Ok (nextPop, w') ->
  exists species1 st w1 cs w2 popOrgs w3 ns children w4 ns',
    scanSpecies (PopSpecies population) (None, 0%float) w = Ok (species1, st, w1) /\
    cullLoop settings (fst st) species1
             {| living := []; adjFit := 0%float; popFit := 0%float |} w1 = Ok (cs, w2) /\
    SpeciesSlice_Organisms settings (living cs) w2 = Ok (popOrgs, w3) /\
    reproduceLoop settings (adjFit cs) popOrgs (popFit cs) (living cs) ([], [])
                  (inno_reset w3) = Ok (ns, children, w4) /\
    speciate settings children ns w4 = Ok (ns', w') /\
    nextPop = {| Generation := wrap (Generation population + 1);
                 PopSpecies := prune ns' |}.
Proof.
  unfold rollPop. intro H.
  step H as [species1 st] w1 Hscan. step H as cs w2 Hcull.
  step H as popOrgs w3 Hpop. step H as u wr Hreset.
  apply total_Ok in Hreset. inversion Hreset; subst u wr.
  step H as [ns children] w4 Hloop. step H as ns' w5 Hspec.
  step_inv H. inversion H; subst.
  exists species1, st, w1, cs, w2, popOrgs, w3, ns, children, w4, ns'.
  repeat split; assumption.
Qed.

(** A step that ends normally on a population with a species has a living
    species: the one the scan designated. *)
Lemma living_nonempty (settings : Settings) (ss species1 : list Species)
      (st : bestState) (cs : cullState) (w w1 w2 : W) :
  ss <> [] ->
  scanSpecies ss (None, 0%float) w = Ok (species1, st, w1) ->
  cullLoop settings (fst st) species1
           {| living := []; adjFit := 0%float; popFit := 0%float |} w1 = Ok (cs, w2) ->
  living cs <> [].
Proof.
  intros Hne Hscan Hcull.
  apply scanSpecies_spec in Hscan. destruct Hscan as (Hlen & _ & _ & Hbest).
  destruct species1 as [|x rest];
    [destruct ss; [congruence | discriminate Hlen]|].
  destruct Hbest as [->|(b & Hb & Hin & _)]; [discriminate Hcull|].
  rewrite Hb in Hcull. apply cullLoop_spec in Hcull. destruct Hcull as (_ & Hnew & _).
  destruct (Hnew b Hin (survives_self settings b)) as (s & _ & _ & _ & _ & Hs).
  intro Hnil. rewrite Hnil in Hs. destruct Hs.
Qed.

(** C1: when the current population has a species and the step ends normally,
    the organisms of the next population, over all its species, are exactly
    [PopulationSize] in number. *)
Theorem population_size_conserved (settings : Settings)
        (population nextPop : @Population NodeGene ConnGene) (w w' : W) :
  PopSpecies population <> [] ->
  rollPop settings population w = Ok (nextPop, w') ->
  Z.of_nat (length (Organisms nextPop)) = PopulationSize settings.
Proof.
  intros Hne H. apply rollPop_phases in H.
  destruct H as (species1 & st & w1 & cs & w2 & popOrgs & w3 & ns & children & w4
                 & ns' & Hscan & Hcull & _ & Hloop & Hspec & ->).
  assert (Hliv := living_nonempty _ _ _ _ _ _ _ _ Hne Hscan Hcull).
  destruct (living cs) as [|s1 rest]; [congruence|].
  assert (Hcopies := reproduceLoop_species _ _ _ _ _ _ _ _ _ _ _ Hloop).
  destruct Hcopies as (copies & Hns & _ & _ & Hempty). cbn [app] in Hns. subst ns.
  apply reproduceLoop_first_pass in Hloop. destruct Hloop as (Hlen & _).
  apply speciate_spec in Hspec. destruct Hspec as (Hcount & _).
  unfold Organisms. cbn [PopSpecies]. rewrite flat_map_prune.
  unfold organismCount in Hcount. rewrite Hcount.
  assert (Hzero : length (flat_map Orgs copies) = 0%nat).
  { clear -Hempty. induction Hempty as [|s l Hs _ IH]; [reflexivity|].
    cbn [flat_map]. rewrite Hs. exact IH. }
  rewrite Hzero. exact Hlen.
Qed.


End StepProperties.

(** * Sample runs

    The statements above at the sample inputs of [Demo]. *)

Lemma population_size_conserved_witness :
  exists nextPop w',
    rollPop (E := Demo.collaborators) (Demo.config 10 0.5 1) Demo.popTen Demo.world0
      = Ok (nextPop, w') /\
    Z.of_nat (length (Organisms nextPop)) = 10.
Proof.
  destruct (rollPop (E := Demo.collaborators) (Demo.config 10 0.5 1)
                    Demo.popTen Demo.world0) as [[nextPop w']|p] eqn:Hrun.
  - exists nextPop, w'. split; [reflexivity|].
    apply (population_size_conserved (E := Demo.collaborators)
             (Demo.config 10 0.5 1) Demo.popTen nextPop Demo.world0 w');
      [discriminate | exact Hrun].
  - vm_compute in Hrun. discriminate Hrun.
Defined.

Lemma count_ensured_inside_loop_witness :
  exists ns' c' w' ns1 w1,
    reproduceLoop (E := Demo.collaborators) (Demo.config 4 1 1) 10%float
                  Demo.poolPair 10%float Demo.livingPair ([], []) Demo.world0
      = Ok (ns', c', w') /\
    Z.of_nat (length c') = 4 /\
    reproduceSpecies (E := Demo.collaborators) (Demo.config 4 1 1) 10%float
                     Demo.poolPair 10%float (Demo.survivor 7 Demo.eliteA 4%float)
                     ([], []) Demo.world0
      = Ok (ns1, c', w1) /\
    ~ In Demo.eliteB c'.
Proof.
  destruct (reproduceLoop (E := Demo.collaborators) (Demo.config 4 1 1) 10%float
                  Demo.poolPair 10%float Demo.livingPair ([], []) Demo.world0)
    as [[[ns' c'] w']|p] eqn:Hrun.
  - destruct (count_ensured_inside_loop (E := Demo.collaborators)
                (Demo.config 4 1 1) 10%float Demo.poolPair 10%float
                (Demo.survivor 7 Demo.eliteA 4%float)
                [Demo.survivor 8 Demo.eliteB 6%float] [] ns' [] c' Demo.world0 w' Hrun)
      as (Hlen & (ns1 & w1 & Hfirst) & _).
    exists ns', c', w', ns1, w1. split; [reflexivity|]. split; [exact Hlen|].
    split; [exact Hfirst|].
    vm_compute in Hrun. inversion Hrun; subst c'. clear.
    intro Hin. cbn [In] in Hin.
    repeat (destruct Hin as [Hin|Hin]; [discriminate Hin|]). exact Hin.
  - vm_compute in Hrun. discriminate Hrun.
Defined.

Lemma cull_singleton_keeps_none_witness :
  keepCount (E := Demo.collaborators) (Demo.config 10 0.5 0) 1 = 0 /\
  exists p, cullSpecies (E := Demo.collaborators) (Demo.config 10 0.5 0)
                        Demo.loneSpecies Demo.world0 = Panic p.
Proof.
  exact (cull_singleton_keeps_none (E := Demo.collaborators) (Demo.config 10 0.5 0)
           Demo.loneSpecies Demo.world0 eq_refl eq_refl eq_refl eq_refl).
Defined.

Lemma protected_species_survives_witness :
  exists species1 b bestFit w1 cs w2 s,
    scanSpecies (E := Demo.collaborators) (PopSpecies Demo.popTwo) (None, 0%float)
                Demo.world0 = Ok (species1, (Some b, bestFit), w1) /\
    cullLoop (E := Demo.collaborators) (Demo.config 4 1 1) (Some b) species1
             {| living := []; adjFit := 0%float; popFit := 0%float |} w1
      = Ok (cs, w2) /\
    (AgeToStagnation (Demo.config 4 1 1) <=? wrap (Age b - BestFitAge b)) = true /\
    In s (living cs) /\ ID s = ID b.
Proof.
  destruct (scanSpecies (E := Demo.collaborators) (PopSpecies Demo.popTwo)
                        (None, 0%float) Demo.world0)
    as [[[species1 [[b|] bestFit]] w1]|p] eqn:Hscan;
    try (vm_compute in Hscan; discriminate Hscan).
  destruct (cullLoop (E := Demo.collaborators) (Demo.config 4 1 1) (Some b) species1
                     {| living := []; adjFit := 0%float; popFit := 0%float |} w1)
    as [[cs w2]|p] eqn:Hcull.
  - destruct (protected_species_survives (E := Demo.collaborators)
                (Demo.config 4 1 1) (PopSpecies Demo.popTwo) species1 b bestFit
                {| living := []; adjFit := 0%float; popFit := 0%float |} cs
                Demo.world0 w1 w2 Hscan Hcull)
      as (_ & s & tf & wa & wb & _ & Hs & Hid & _).
    exists species1, b, bestFit, w1, cs, w2, s.
    split; [reflexivity|]. split; [exact Hcull|]. split; [|split; assumption].
    vm_compute in Hscan. inversion Hscan. reflexivity.
  - exfalso. vm_compute in Hscan. inversion Hscan; subst.
    vm_compute in Hcull. discriminate Hcull.
Defined.

Lemma MPC_one_species_5_7_witness :
  geneCount Demo.org5 = 5 /\ geneCount Demo.org7 = 7 /\ MPC Demo.pop57 = 12%float.
Proof.
  split; [reflexivity|]. split; [reflexivity|].
  exact (MPC_one_species_5_7 Demo.org5 Demo.org7 Demo.species57 1
           eq_refl eq_refl eq_refl).
Defined.

(** C5 as stated fails: on one species of two organisms with 5 and 7 genes
    [MPC] does not return 6.0. *)
Lemma MPC_one_species_5_7_not_six :
  Orgs Demo.species57 = [Demo.org5; Demo.org7] /\
  geneCount Demo.org5 = 5 /\ geneCount Demo.org7 = 7 /\
  MPC Demo.pop57 <> 6%float.
Proof.
  split; [reflexivity|]. split; [reflexivity|]. split; [reflexivity|].
  intro H. apply (f_equal (fun x => PrimFloat.eqb x 6%float)) in H.
  vm_compute in H. discriminate H.
Qed.



Lemma tournament_degenerate_nil_witness :
  tournament (E := Demo.collaborators) [Demo.debtor] (-1)%float Demo.world0
  = Ok (None, snd (Demo.drawFloat Demo.world0)).
Proof.
  apply (proj2 (tournament_degenerate_nil (E := Demo.collaborators)
                  (-1)%float Demo.world0)).
  - intros o [<-|[]]. discriminate.
  - intros k Hk. cbn [length] in Hk.
    assert (k = 1%nat) as -> by lia. vm_compute. reflexivity.
Defined.

Lemma drawFloat_not_negative (w : Demo.world) :
  PrimFloat.ltb (fst (Demo.drawFloat w)) 0 = false.
Proof.
  unfold Demo.drawFloat. destruct (Demo.floats w) as [|f l]; [reflexivity|].
  cbn [fst]. unfold Demo.unitInterval.
  destruct (PrimFloat.ltb f 0) eqn:Hneg; [reflexivity|].
  destruct (PrimFloat.ltb f 1); [exact Hneg | reflexivity].
Qed.

Lemma budget_less_elites_witness :
  exists cs w1 nextS c' w' offspring,
    cullLoop (E := Demo.collaborators) (Demo.config 4 1 1)
             (Some (Demo.survivor 7 Demo.eliteA 4%float)) Demo.livingPair
             {| living := []; adjFit := 0%float; popFit := 0%float |} Demo.world0
      = Ok (cs, w1) /\
    breed (E := Demo.collaborators) (Demo.config 4 1 1) (adjFit cs) Demo.poolPair
          (popFit cs) (Demo.survivor 8 Demo.eliteB 6%float) [] w1
      = Ok (nextS, c', w') /\
    adjFit cs = 10%float /\
    budget (E := Demo.collaborators) (Demo.config 4 1 1) (adjFit cs)
           (Demo.survivor 8 Demo.eliteB 6%float) = 2 /\
    c' = Demo.eliteB :: offspring /\ Z.of_nat (length offspring) = 1.
Proof.
  destruct (cullLoop (E := Demo.collaborators) (Demo.config 4 1 1)
             (Some (Demo.survivor 7 Demo.eliteA 4%float)) Demo.livingPair
             {| living := []; adjFit := 0%float; popFit := 0%float |} Demo.world0)
    as [[cs w1]|p] eqn:Hcull; [|vm_compute in Hcull; discriminate Hcull].
  destruct (breed (E := Demo.collaborators) (Demo.config 4 1 1) (adjFit cs)
                  Demo.poolPair (popFit cs) (Demo.survivor 8 Demo.eliteB 6%float)
                  [] w1) as [[[nextS c'] w']|p] eqn:Hbreed.
  - destruct (budget_less_elites (E := Demo.collaborators) (Demo.config 4 1 1)
                _ _ cs Demo.poolPair _ nextS [] c' _ w1 w1 w' Hcull Hbreed)
      as (_ & _ & _ & offspring & Hc & _ & Hexact).
    assert (Hcs : adjFit cs = 10%float).
    { vm_compute in Hcull. inversion Hcull. reflexivity. }
    assert (Hb : budget (E := Demo.collaborators) (Demo.config 4 1 1) (adjFit cs)
                        (Demo.survivor 8 Demo.eliteB 6%float) = 2).
    { rewrite Hcs. vm_compute. reflexivity. }
    exists cs, w1, nextS, c', w', offspring.
    split; [reflexivity|]. split; [exact Hbreed|]. split; [exact Hcs|].
    split; [exact Hb|]. split; [exact Hc|].
    rewrite Hb in Hexact. apply Hexact. exact drawFloat_not_negative.
  - exfalso. vm_compute in Hcull. inversion Hcull; subst.
    vm_compute in Hbreed. discriminate Hbreed.
Defined.


Lemma rollPop_without_positive_fitness_witness :
  rollPop (E := Demo.collaborators) (Demo.config 4 1 1) Demo.popZero Demo.world0
  = Panic NilDereference.
Proof.
  destruct (scanSpecies (E := Demo.collaborators) (PopSpecies Demo.popZero)
                        (None, 0%float) Demo.world0)
    as [[[species1 st] w1]|p] eqn:Hscan; [|vm_compute in Hscan; discriminate Hscan].
  apply (proj2 (rollPop_without_positive_fitness (E := Demo.collaborators)
                  (Demo.config 4 1 1) Demo.popZero species1 st Demo.world0 w1
                  ltac:(discriminate) Hscan)).
  vm_compute in Hscan. inversion Hscan; subst species1. clear.
  intros s o f [<-|[]] [<-|[<-|[]]] Hf; vm_compute in Hf; inversion Hf; reflexivity.
Defined.

(** A whole step on two species that both pass the gate: the next population
    has the first species only, and the elite organism of the second
    (fitness 3) is not in it. *)
Example later_species_elite_dropped :
  exists nextPop w',
    rollPop (E := Demo.collaborators) (Demo.config 4 1 1) Demo.popTwo Demo.world0
      = Ok (nextPop, w') /\
    map ID (PopSpecies nextPop) = [7] /\
    ~ In (Demo.mkOrg 4 3 2 3%float) (Organisms nextPop).
Proof.
  do 2 eexists. split; [vm_compute; reflexivity|]. split; [reflexivity|].
  intro Hin. cbn in Hin.
  repeat (destruct Hin as [Hin|Hin]; [discriminate Hin|]). exact Hin.
Qed.

(** A whole step on a population of one species with one organism, with a
    survival fraction of one half and no elite: it panics. *)
Example lone_species_step_panics :
  exists p, rollPop (E := Demo.collaborators) (Demo.config 10 0.5 0)
                    Demo.popLone Demo.world0 = Panic p.
Proof. eexists. vm_compute. reflexivity. Qed.

(** * Further properties of the step *)

(** ** More on the order of [float64] *)

Lemma SFlt_le_trans (x y z : spec_float) :
  SFltb x y = true -> SFleb y z = true -> SFltb x z = true.
Proof.
  unfold SFltb, SFleb, SFcompare.
  destruct x as [sx|sx| |sx mx ex], y as [sy|sy| |sy my ey], z as [sz|sz| |sz mz ez];
    try destruct sx; try destruct sy; try destruct sz;
    try discriminate; try reflexivity;
    repeat match goal with
           | |- context [Z.compare ?a ?b] => destruct (Z.compare_spec a b)
           | |- context [Pos.compare_cont Eq ?a ?b] =>
               change (Pos.compare_cont Eq a b) with (Pos.compare a b);
               destruct (Pos.compare_spec a b)
           end;
    cbn; try discriminate; try reflexivity; intros; exfalso; subst; lia.
Qed.

Lemma ltb_leb_trans (x y z : float) :
  PrimFloat.ltb x y = true -> PrimFloat.leb y z = true -> PrimFloat.ltb x z = true.
Proof. rewrite !ltb_spec, leb_spec. apply SFlt_le_trans. Qed.

(** What does not exceed a bound does not reach anything above the bound. *)
Lemma not_reached_raise (a b f : float) :
  PrimFloat.ltb a b = true -> PrimFloat.ltb a f = false -> PrimFloat.leb b f = false.
Proof.
  intros Hab Haf. destruct (PrimFloat.leb b f) eqn:Hbf; [|reflexivity].
  rewrite (ltb_leb_trans _ _ _ Hab Hbf) in Haf. discriminate.
Qed.

(** ** Selection, in full *)

Section SelectionInFull.

Context {NodeGene ConnGene W : Type} {E : @Externals NodeGene ConnGene W}.
Local Abbreviation Organism := (@Organism NodeGene ConnGene).

Lemma prefix_step (o : Organism) (rest : list Organism) (sum : float) (k : nat) :
  fold_left (fun acc x => PrimFloat.add acc (primaryFitness x))
            (firstn (S k) (o :: rest)) sum
  = fold_left (fun acc x => PrimFloat.add acc (primaryFitness x))
              (firstn k rest) (PrimFloat.add sum (primaryFitness o)).
Proof. reflexivity. Qed.

(** The walk stops at the first organism at which the accumulated fitness
    reaches the target. *)
Lemma tournamentWalk_first (orgs : list Organism) : forall tgt sum,
  (forall o, In o orgs -> Fitness o <> []) ->
  exists r, tournamentWalk orgs tgt sum = Ok r /\
    match r with
    | Some o =>
        exists k, nth_error orgs k = Some o /\
          PrimFloat.leb tgt
            (fold_left (fun acc x => PrimFloat.add acc (primaryFitness x))
                       (firstn (S k) orgs) sum) = true /\
          forall j, (1 <= j <= k)%nat ->
            PrimFloat.leb tgt
              (fold_left (fun acc x => PrimFloat.add acc (primaryFitness x))
                         (firstn j orgs) sum) = false
    | None =>
        forall j, (1 <= j <= length orgs)%nat ->
          PrimFloat.leb tgt
            (fold_left (fun acc x => PrimFloat.add acc (primaryFitness x))
                       (firstn j orgs) sum) = false
    end.
Proof.
  induction orgs as [|o rest IH]; intros tgt sum Hfit.
  - exists None. split; [reflexivity|]. cbn [length]. intros j Hj. lia.
  - cbn [tournamentWalk]. rewrite fitness0_primary by (apply Hfit; left; reflexivity).
    destruct (PrimFloat.leb tgt (PrimFloat.add sum (primaryFitness o))) eqn:Hreach.
    + exists (Some o). split; [reflexivity|]. exists 0%nat.
      split; [reflexivity|]. split; [exact Hreach|]. intros j Hj. lia.
    + destruct (IH tgt (PrimFloat.add sum (primaryFitness o))
                   (fun x Hx => Hfit x (or_intror Hx))) as (r & Hr & Hspec).
      exists r. split; [exact Hr|]. destruct r as [o'|].
      * destruct Hspec as (k & Hk & Hhit & Hmiss). exists (S k).
        split; [exact Hk|]. split; [rewrite prefix_step; exact Hhit|].
        intros j Hj. destruct j as [|j]; [lia|]. rewrite prefix_step.
        destruct j as [|j]; [exact Hreach|]. apply Hmiss. lia.
      * intros j Hj. destruct j as [|j]; [lia|]. rewrite prefix_step.
        destruct j as [|j]; [exact Hreach|]. apply Hspec. cbn [length] in Hj. lia.
Qed.

(** X1: on a pool whose organisms all have a fitness vector, [tournament]
    always returns, after exactly one draw; its champion is the first
    organism of the pool at which the fitness accumulated in pool order
    reaches [draw * totFit], and nil exactly when none does. *)
Theorem tournament_first_to_reach (orgs : list Organism) (totFit : float) (w : W) :
  (forall o, In o orgs -> Fitness o <> []) ->
  exists r, tournament orgs totFit w = Ok (r, snd (random_Next w)) /\
    let tgt := PrimFloat.mul (fst (random_Next w)) totFit in
    match r with
    | Some o =>
        exists k, nth_error orgs k = Some o /\
          PrimFloat.leb tgt (prefixFitness orgs (S k)) = true /\
          forall j, (1 <= j <= k)%nat ->
                    PrimFloat.leb tgt (prefixFitness orgs j) = false
    | None =>
        forall j, (1 <= j <= length orgs)%nat ->
                  PrimFloat.leb tgt (prefixFitness orgs j) = false
    end.
Proof.
  intro Hfit. unfold tournament, bind, total, pure.
  destruct (random_Next w) as [r0 w1]. cbn [fst snd].
  destruct (tournamentWalk_first orgs (PrimFloat.mul r0 totFit) 0%float Hfit)
    as (r & Hr & Hspec).
  exists r. rewrite Hr. split; [reflexivity | exact Hspec].
Qed.

End SelectionInFull.

(** ** The scan and the gate, in full *)

Section GateInFull.

Context {NodeGene ConnGene W : Type} {E : @Externals NodeGene ConnGene W}.
Local Abbreviation Organism := (@Organism NodeGene ConnGene).
Local Abbreviation Species := (@Species NodeGene ConnGene).

(** The scan of one species leaves the state alone or raises the best
    fitness strictly, naming this species. *)
Lemma scanOrgs_raises (s : Species) (orgs : list Organism) : forall st st',
  scanOrgs s orgs st = Ok st' ->
  st' = st \/ (fst st' = Some s /\ PrimFloat.ltb (snd st) (snd st') = true).
Proof.
  induction orgs as [|o rest IH]; intros st st' H; cbn [scanOrgs] in H.
  - inversion H. left. reflexivity.
  - destruct (fitness0 o) as [f|p]; [|discriminate].
    destruct (PrimFloat.ltb (snd st) f) eqn:Hlt.
    + right. destruct (IH _ _ H) as [->|[Hb Hup]]; cbn [fst snd] in *.
      * split; [reflexivity | exact Hlt].
      * split; [exact Hb | eapply ltb_trans; eauto].
    + apply IH. exact H.
Qed.

Lemma scanSpecies_first (ss : list Species) : forall st w ss' st' w',
  scanSpecies ss st w = Ok (ss', st', w') ->
  st' = st \/
  exists pre b post,
    ss' = pre ++ b :: post /\ fst st' = Some b /\
    PrimFloat.ltb (snd st) (snd st') = true /\
    forall s o f, In s pre -> In o (Orgs s) -> fitness0 o = Ok f ->
                  PrimFloat.leb (snd st') f = false.
Proof.
  induction ss as [|s rest IH]; intros st w ss' st' w' H; cbn [scanSpecies] in H.
  - step_inv H. inversion H. left. reflexivity.
  - step H as s1 w1 Hcalc. step H as st1 w2 Hscan.
    apply pure_Ok in Hscan. cbn [fst snd] in Hscan. destruct Hscan as [Hscan ->].
    step H as [rest' st2] w3 Hrest. step_inv H. inversion H; subst.
    assert (Hlow := proj1 (scanOrgs_spec _ _ _ _ Hscan)).
    destruct (IH _ _ _ _ _ Hrest) as [->|(pre & b & post & -> & Hb & Hup & Hpre)].
    + destruct (scanOrgs_raises _ _ _ _ Hscan) as [->|[Hb Hup]]; [left; reflexivity|].
      right. exists [], s1, rest'. split; [reflexivity|]. split; [exact Hb|].
      split; [exact Hup|]. intros x o f [].
    + right. exists (s1 :: pre), b, post. split; [reflexivity|]. split; [exact Hb|].
      split.
      * destruct (scanOrgs_raises _ _ _ _ Hscan) as [->|[_ Hup1]]; [exact Hup|].
        eapply ltb_trans; eauto.
      * intros x o f [<-|Hx] Ho Hf; [|eapply Hpre; eauto].
        eapply not_reached_raise; [exact Hup|]. eapply Hlow; eauto.
Qed.

(** X2: ties go to the species met first.  When the scan designates a
    species, no organism of a species before it in the population reaches
    the best fitness. *)
Theorem best_species_is_first_to_reach (ss species1 : list Species) (b : Species)
        (bestFit : float) (w w1 : W) :
  scanSpecies ss (None, 0%float) w = Ok (species1, (Some b, bestFit), w1) ->
  exists pre post,
    species1 = pre ++ b :: post /\
    PrimFloat.ltb 0 bestFit = true /\
    forall s o f, In s pre -> In o (Orgs s) -> fitness0 o = Ok f ->
                  PrimFloat.leb bestFit f = false.
Proof.
  intro H. apply scanSpecies_first in H. cbn [fst snd] in H.
  destruct H as [H|(pre & b' & post & -> & Hb & Hup & Hpre)]; [discriminate H|].
  inversion Hb; subst b'. exists pre, post. auto.
Qed.

(** The gate keeps the order of the population and drops nothing that
    passes. *)
Lemma cullLoop_filter (settings : Settings) (b : Species) (ss : list Species) :
  forall cs0 w cs w',
  cullLoop settings (Some b) ss cs0 w = Ok (cs, w') ->
  exists added,
    living cs = living cs0 ++ added /\
    Forall2 (culledFrom settings) (filter (survives settings b) ss) added.
Proof.
  induction ss as [|x rest IH]; intros cs0 w cs w' H; cbn [cullLoop] in H.
  - step_inv H. inversion H. exists []. rewrite app_nil_r. split; [reflexivity|].
    constructor.
  - cbn [filter]. destruct (survives settings b x).
    + step H as [s1 tf1] w1 Hcull. apply IH in H. cbn [living] in H.
      destruct H as (added & -> & Hall). exists (s1 :: added).
      rewrite <- app_assoc. split; [reflexivity|]. constructor; [|exact Hall].
      exists tf1, w, w1. exact Hcull.
    + eapply IH. exact H.
Qed.

(** X3: the living species are, one for one and in the order of the
    population, the species that pass the gate (the designated one, and those
    whose [Age - BestFitAge] is below [AgeToStagnation]), each as culling
    leaves it; every other species is dropped. *)
Theorem gate_keeps_exactly_the_viable (settings : Settings) (b : Species)
        (ss : list Species) (cs : cullState) (w w' : W) :
  cullLoop settings (Some b) ss
           {| living := []; adjFit := 0%float; popFit := 0%float |} w = Ok (cs, w') ->
  Forall2 (culledFrom settings)
          (filter (fun s => (ID s =? ID b)
                            || (wrap (Age s - BestFitAge s) <? AgeToStagnation settings))
                  ss)
          (living cs) /\
  map ID (living cs)
  = map ID (filter (fun s => (ID s =? ID b)
                             || (wrap (Age s - BestFitAge s) <? AgeToStagnation settings))
                   ss).
Proof.
  intro H. apply cullLoop_filter in H. cbn [living app] in H.
  destruct H as (added & -> & Hall).
  split; [exact Hall|].
  change (fun s : Species =>
            (ID s =? ID b) || (wrap (Age s - BestFitAge s) <? AgeToStagnation settings))
    with (survives settings b).
  induction Hall as [|x s lx ls Hxs _ IH]; [reflexivity|].
  cbn [map]. f_equal; [|exact IH].
  destruct Hxs as (tf & wa & wb & Hc). apply cullSpecies_spec in Hc.
  cbv zeta in Hc. tauto.
Qed.



End GateInFull.

(** ** Where the next generation comes from *)

Section Origins.

Context {NodeGene ConnGene W : Type} {E : @Externals NodeGene ConnGene W}.
Local Abbreviation Organism := (@Organism NodeGene ConnGene).
Local Abbreviation Species := (@Species NodeGene ConnGene).

Lemma In_firstn_In {A : Type} (n : nat) (l : list A) (x : A) :
  In x (firstn n l) -> In x l.
Proof.
  intro H. rewrite <- (firstn_skipn n l). apply in_or_app. left. exact H.
Qed.

Lemma tournament_parent (pool : list Organism) totFit w p w' :
  tournament pool totFit w = Ok (p, w') -> parentFrom pool p.
Proof.
  destruct p as [o|]; [|left; reflexivity]. intro H. right. exists o.
  split; [reflexivity|]. eapply tournament_member. exact H.
Qed.

Lemma offspringSlot_origin (settings : Settings) (currS : Species) orgFit
      popOrgs totPop (children c' : list Organism) w w' :
  offspringSlot settings currS orgFit popOrgs totPop children w = Ok (c', w') ->
  c' = children \/
  exists child, c' = children ++ [child] /\
                offspringOf settings (Orgs currS) popOrgs child.
Proof.
  unfold offspringSlot. intro H. step H as r w1 Hr.
  destruct (PrimFloat.ltb r (InterspeciesMating settings)).
  - step_inv H. inversion H. left. reflexivity.
  - right. step H as p1 w2 Hp1. apply tournament_parent in Hp1.
    step H as mo w3 Hmo. destruct mo.
    + step H as id w4 Hid. step H as c w5 Hc. step H as c1 w6 Hc1.
      step_inv H. inversion H; subst. exists c1. split; [reflexivity|].
      exists c, w5. eexists. split; [eassumption|]. left. eauto.
    + step H as r3 w4 Hr3. step H as p2 w5 Hp2. step H as c w6 Hc.
      step H as c1 w7 Hc1. step_inv H. inversion H; subst.
      exists c1. split; [reflexivity|].
      exists c, w6. eexists. split; [eassumption|]. right.
      exists p1, p2, w5. split; [exact Hp1|]. split; [|exact Hc].
      destruct (PrimFloat.ltb r3 (InterspeciesMating settings));
        apply tournament_parent in Hp2; auto.
Qed.

Lemma offspringLoop_origin (n : nat) (settings : Settings) (currS : Species) orgFit
      popOrgs totPop : forall (children c' : list Organism) w w',
  offspringLoop n settings currS orgFit popOrgs totPop children w = Ok (c', w') ->
  exists extra, c' = children ++ extra /\
                Forall (offspringOf settings (Orgs currS) popOrgs) extra.
Proof.
  induction n as [|n IH]; intros children c' w w' H; cbn [offspringLoop] in H.
  - step_inv H. inversion H. exists []. rewrite app_nil_r. auto.
  - step H as c1 w1 Hslot. apply IH in H. destruct H as (more & -> & Hall).
    destruct (offspringSlot_origin _ _ _ _ _ _ _ _ _ Hslot) as [->|(child & -> & Hc)].
    + exists more. auto.
    + exists (child :: more). rewrite <- app_assoc. split; [reflexivity|].
      constructor; assumption.
Qed.

Lemma topUp_origin (n : nat) (settings : Settings) popOrgs totPop :
  forall (children c' : list Organism) w w',
  topUp n settings popOrgs totPop children w = Ok (c', w') ->
  exists extra, c' = children ++ extra /\
                Forall (toppedUpFrom settings popOrgs) extra.
Proof.
  induction n as [|n IH]; intros children c' w w' H; cbn [topUp] in H.
  - step_inv H. inversion H. exists []. rewrite app_nil_r. auto.
  - step H as p1 w1 Hp1. step H as p2 w2 Hp2. step H as c w3 Hc.
    step H as c1 w4 Hc1. apply IH in H. destruct H as (more & -> & Hall).
    exists (c1 :: more). rewrite <- app_assoc. split; [reflexivity|].
    constructor; [|exact Hall].
    exists c, w3, w4, p1, p2, w2.
    split; [exact Hc1|]. split; [eapply tournament_parent; eauto|].
    split; [eapply tournament_parent; eauto | exact Hc].
Qed.

(** Every child that leaves a pass of the loop was there before, or is an
    elite of the species, or was bred by its dispatch, or topped up. *)
Lemma reproduceSpecies_origin (settings : Settings) totAdj popOrgs totPop
      (currS : Species) (ns ns' : list Species) (children c' : list Organism) w w' :
  reproduceSpecies settings totAdj popOrgs totPop currS (ns, children) w
    = Ok (ns', c', w') ->
  ns' = ns ++ [nextCopy currS] /\
  forall o, In o c' ->
    In o children \/ In o (elites settings currS) \/
    offspringOf settings (Orgs currS) popOrgs o \/
    toppedUpFrom settings popOrgs o.
Proof.
  unfold reproduceSpecies. intro H. cbn [fst snd] in H.
  step H as [nextS c1] w1 Hbreed. step H as c2 w2 Hens. step_inv H.
  inversion H; subst. clear H.
  unfold breed in Hbreed. cbv zeta in Hbreed.
  destruct (budget settings totAdj currS <? 0); [discriminate Hbreed|].
  step Hbreed as orgFit w3 Hfit. step Hbreed as c3 w4 Hloop. step_inv Hbreed.
  inversion Hbreed; subst. clear Hbreed.
  split; [reflexivity|].
  apply offspringLoop_origin in Hloop. destruct Hloop as (extra & -> & Hextra).
  assert (Hc1 : forall o, In o ((children ++ elites settings currS) ++ extra) ->
                In o children \/ In o (elites settings currS) \/
                offspringOf settings (Orgs currS) popOrgs o \/
                toppedUpFrom settings popOrgs o).
  { intros o Ho. apply in_app_or in Ho. destruct Ho as [Ho|Ho].
    - apply in_app_or in Ho. tauto.
    - right. right. left. rewrite Forall_forall in Hextra. auto. }
  unfold ensureCount in Hens.
  destruct (Z.of_nat (length ((children ++ elites settings currS) ++ extra))
            >? PopulationSize settings).
  - destruct (PopulationSize settings <? 0); [discriminate Hens|].
    step_inv Hens. inversion Hens; subst.
    intros o Ho. apply Hc1. eapply In_firstn_In. exact Ho.
  - apply topUp_origin in Hens. destruct Hens as (more & -> & Hmore).
    intros o Ho. apply in_app_or in Ho. destruct Ho as [Ho|Ho]; [auto|].
    right. right. right. rewrite Forall_forall in Hmore. auto.
Qed.

Lemma reproduceLoop_copies (settings : Settings) totAdj popOrgs totPop
      (livingS : list Species) : forall ns ns' (children c' : list Organism) w w',
  reproduceLoop settings totAdj popOrgs totPop livingS (ns, children) w
    = Ok (ns', c', w') ->
  ns' = ns ++ map nextCopy livingS.
Proof.
  induction livingS as [|s rest IH]; intros ns ns' children c' w w' H;
    cbn [reproduceLoop] in H.
  - step_inv H. inversion H. rewrite app_nil_r. reflexivity.
  - step H as [ns1 c1] w1 Hfirst. apply reproduceSpecies_origin in Hfirst.
    destruct Hfirst as [-> _]. apply IH in H. rewrite H, <- app_assoc. reflexivity.
Qed.

End Origins.

(** ** Speciation, in full *)

Section SpeciationInFull.

Context {NodeGene ConnGene W : Type} {E : @Externals NodeGene ConnGene W}.
Local Abbreviation Organism := (@Organism NodeGene ConnGene).
Local Abbreviation Species := (@Species NodeGene ConnGene).

(** X5: the inner loop of [speciate] is a first match.  The child is appended
    to one species, whose example was found closer than the threshold, after
    the examples of all the species before it were found not closer; the
    species after it are not looked at and nothing else changes.  Without a
    match, every species was looked at and found not closer. *)
Theorem place_is_first_match (settings : Settings) (child : Organism)
        (ss : list Species) (r : option (list Species)) (w w' : W) :
  place settings child ss w = Ok (r, w') ->
  match r with
  | Some ss' =>
      exists pre s post,
        ss = pre ++ s :: post /\ ss' = pre ++ appendOrg s child :: post /\
        Forall (notCloseTo settings child) pre /\ closeTo settings child s
  | None => Forall (notCloseTo settings child) ss
  end.
Proof.
  revert r w w'. induction ss as [|s rest IH]; intros r w w' H; cbn [place] in H.
  - step_inv H. inversion H. constructor.
  - step H as d w1 Hd.
    destruct (PrimFloat.ltb d (CompatThreshold settings)) eqn:Hclose.
    + step_inv H. inversion H; subst. exists [], s, rest.
      split; [reflexivity|]. split; [reflexivity|]. split; [constructor|].
      exists w, d. eexists. split; eassumption.
    + step H as r1 w2 Hrest. step_inv H. inversion H; subst.
      assert (Hfar : notCloseTo settings child s).
      { exists w, d, w1. split; assumption. }
      apply IH in Hrest. destruct r1 as [ss1|]; cbn [option_map].
      * destruct Hrest as (pre & s0 & post & -> & -> & Hpre & Hs0).
        exists (s :: pre), s0, post. split; [reflexivity|]. split; [reflexivity|].
        split; [constructor; assumption | exact Hs0].
      * constructor; assumption.
Qed.

Lemma grownFrom_refl (s : Species) : grownFrom s s.
Proof. exists []. rewrite app_nil_r. destruct s; reflexivity. Qed.

Lemma grownFrom_appendOrg (s : Species) (c : Organism) : grownFrom s (appendOrg s c).
Proof. exists [c]. reflexivity. Qed.

Lemma grownFrom_trans (s1 s2 s3 : Species) :
  grownFrom s1 s2 -> grownFrom s2 s3 -> grownFrom s1 s3.
Proof.
  intros [m1 ->] [m2 ->]. exists (m1 ++ m2). cbn. rewrite app_assoc. reflexivity.
Qed.

Lemma founded_grownFrom (s s' : Species) : founded s -> grownFrom s s' -> founded s'.
Proof.
  intros (w0 & o & more & Hid & Horgs & Hex & Hrest) [m ->].
  exists w0, o, (more ++ m). cbn. rewrite Horgs. tauto.
Qed.

Lemma Forall2_grownFrom_refl (ss : list Species) : Forall2 grownFrom ss ss.
Proof. induction ss; constructor; [apply grownFrom_refl | assumption]. Qed.

Lemma Forall2_grownFrom_trans (l1 : list Species) : forall l2 l3,
  Forall2 grownFrom l1 l2 -> Forall2 grownFrom l2 l3 -> Forall2 grownFrom l1 l3.
Proof.
  induction l1 as [|a l1 IH]; intros l2 l3 H12 H23.
  - inversion H12; subst. inversion H23; subst. constructor.
  - inversion H12; subst. inversion H23; subst.
    constructor; [eapply grownFrom_trans; eauto | eapply IH; eauto].
Qed.

(** [speciate] only appends: the species it was given stay in place and
    grow, new species follow them. *)
Lemma speciate_shape (settings : Settings) (children : list Organism) :
  forall ss w ss' w',
  speciate settings children ss w = Ok (ss', w') ->
  exists olds news,
    ss' = olds ++ news /\ Forall2 grownFrom ss olds /\ Forall founded news.
Proof.
  induction children as [|child rest IH]; intros ss w ss' w' H; cbn [speciate] in H.
  - step_inv H. inversion H as [[Hs Hw]]. exists ss, []. rewrite app_nil_r.
    split; [reflexivity|]. split; [apply Forall2_grownFrom_refl | constructor].
  - step H as r w1 Hplace. apply place_spec in Hplace. destruct r as [ss1|].
    + destruct Hplace as (pre & s & post & -> & -> & _).
      apply IH in H. destruct H as (olds & news & -> & Hgrow & Hnew).
      exists olds, news. split; [reflexivity|]. split; [|exact Hnew].
      eapply Forall2_grownFrom_trans; [|exact Hgrow].
      apply Forall2_app; [apply Forall2_grownFrom_refl|].
      constructor; [apply grownFrom_appendOrg | apply Forall2_grownFrom_refl].
    + step H as id w2 Hid. apply total_Ok in Hid.
      apply IH in H. destruct H as (olds1 & news1 & -> & Hgrow & Hnew).
      apply Forall2_app_inv_l in Hgrow.
      destruct Hgrow as (olds & last & Hgrow & Hlast & ->).
      inversion Hlast as [|newS n' l0 l1 Hn' Hnil]; subst. inversion Hnil; subst.
      exists olds, (n' :: news1). rewrite <- app_assoc. split; [reflexivity|].
      split; [exact Hgrow|]. constructor; [|exact Hnew].
      eapply founded_grownFrom; [|exact Hn'].
      exists w1, child, []. cbn. rewrite <- Hid. cbn. tauto.
Qed.

(** [speciate] neither loses nor repeats an organism. *)
Lemma speciate_permutation (settings : Settings) (children : list Organism) :
  forall ss w ss' w',
  speciate settings children ss w = Ok (ss', w') ->
  Permutation (flat_map Orgs ss ++ children) (flat_map Orgs ss').
Proof.
  induction children as [|child rest IH]; intros ss w ss' w' H; cbn [speciate] in H.
  - step_inv H. inversion H; subst. rewrite app_nil_r. apply Permutation_refl.
  - step H as r w1 Hplace. apply place_spec in Hplace. destruct r as [ss1|].
    + destruct Hplace as (pre & s & post & -> & -> & _).
      apply IH in H. eapply Permutation_trans; [|exact H].
      change (child :: rest) with ([child] ++ rest). rewrite app_assoc.
      apply Permutation_app_tail.
      rewrite !flat_map_app. cbn [flat_map appendOrg Orgs].
      rewrite <- !app_assoc. do 2 apply Permutation_app_head.
      apply Permutation_app_comm.
    + step H as id w2 Hid. apply IH in H. eapply Permutation_trans; [|exact H].
      rewrite flat_map_app. cbn [flat_map Orgs]. rewrite app_nil_r.
      change (child :: rest) with ([child] ++ rest). rewrite app_assoc.
      apply Permutation_refl.
Qed.

(** X6: [speciate] conserves the organisms and the species.  The organisms
    over all species afterwards are those before and the children, each once;
    the species given stay in place, in order, with organisms appended and no
    other field changed; new species follow them, each with a fresh
    identifier, age zero and its first organism as example. *)
Theorem speciate_conserves (settings : Settings) (children : list Organism)
        (ss ss' : list Species) (w w' : W) :
  speciate settings children ss w = Ok (ss', w') ->
  Permutation (flat_map Orgs ss ++ children) (flat_map Orgs ss') /\
  exists olds news,
    ss' = olds ++ news /\ Forall2 grownFrom ss olds /\ Forall founded news.
Proof.
  intro H. split; [eapply speciate_permutation | eapply speciate_shape]; exact H.
Qed.

End SpeciationInFull.

(** ** The whole step, in full *)

Section StepInFull.

Context {NodeGene ConnGene W : Type} {E : @Externals NodeGene ConnGene W}.
Local Abbreviation Organism := (@Organism NodeGene ConnGene).
Local Abbreviation Species := (@Species NodeGene ConnGene).
Local Abbreviation Population := (@Population NodeGene ConnGene).

Lemma flat_map_Orgs_nextCopy (l : list Species) : flat_map Orgs (map nextCopy l) = [].
Proof. induction l as [|s l IH]; [reflexivity | exact IH]. Qed.

(** X7: nothing enters the next population but the elite of the first living
    species, as it was, organisms bred by that species' dispatch (the
    mutation of a clone or of a crossover of selected parents) and organisms
    of the top-up (the mutation of a crossover of two parents selected from
    the whole pool). *)
Theorem next_population_origin (settings : Settings) (population nextPop : Population)
        (w w' : W) :
  rollPop settings population w = Ok (nextPop, w') ->
  exists species1 st w1 cs w2 popOrgs w3,
    scanSpecies (PopSpecies population) (None, 0%float) w = Ok (species1, st, w1) /\
    cullLoop settings (fst st) species1
             {| living := []; adjFit := 0%float; popFit := 0%float |} w1 = Ok (cs, w2) /\
    SpeciesSlice_Organisms settings (living cs) w2 = Ok (popOrgs, w3) /\
    forall o, In o (Organisms nextPop) ->
      exists s1 rest, living cs = s1 :: rest /\
        (In o (elites settings s1) \/
         offspringOf settings (Orgs s1) popOrgs o \/
         toppedUpFrom settings popOrgs o).
Proof.
  intro H. apply rollPop_phases in H.
  destruct H as (species1 & st & w1 & cs & w2 & popOrgs & w3 & ns & children & w4
                 & ns' & Hscan & Hcull & Hpop & Hloop & Hspec & ->).
  exists species1, st, w1, cs, w2, popOrgs, w3.
  split; [exact Hscan|]. split; [exact Hcull|]. split; [exact Hpop|].
  intros o Ho. unfold Organisms in Ho. cbn [PopSpecies] in Ho.
  rewrite flat_map_prune in Ho.
  assert (Hns := reproduceLoop_copies _ _ _ _ _ _ _ _ _ _ _ Hloop). cbn [app] in Hns.
  apply speciate_permutation in Hspec.
  apply (Permutation_in o (Permutation_sym Hspec)) in Ho.
  rewrite Hns, flat_map_Orgs_nextCopy in Ho. cbn [app] in Ho.
  destruct (living cs) as [|s1 rest].
  - cbn [reproduceLoop] in Hloop. step_inv Hloop. inversion Hloop; subst. destruct Ho.
  - exists s1, rest. split; [reflexivity|].
    apply reproduceLoop_first_pass in Hloop. destruct Hloop as (_ & ns1 & w5 & Hfirst).
    apply reproduceSpecies_origin in Hfirst. destruct Hfirst as [_ Hfrom].
    destruct (Hfrom o Ho) as [[]|Hrest]. exact Hrest.
Qed.

(** X8: the species of the next population are the next-generation copies of
    the living species (same identifier, example and best fitness, age one
    more), in the order of the population and with organisms speciated into
    them, followed by the species founded during speciation, each with a
    fresh identifier, age zero and its first organism as example; those left
    without organisms are removed. *)
Theorem next_population_species (settings : Settings) (population nextPop : Population)
        (w w' : W) :
  rollPop settings population w = Ok (nextPop, w') ->
  exists species1 st w1 cs w2 olds news,
    scanSpecies (PopSpecies population) (None, 0%float) w = Ok (species1, st, w1) /\
    cullLoop settings (fst st) species1
             {| living := []; adjFit := 0%float; popFit := 0%float |} w1 = Ok (cs, w2) /\
    PopSpecies nextPop = prune (olds ++ news) /\
    Forall2 grownFrom (map nextCopy (living cs)) olds /\
    Forall founded news.
Proof.
  intro H. apply rollPop_phases in H.
  destruct H as (species1 & st & w1 & cs & w2 & popOrgs & w3 & ns & children & w4
                 & ns' & Hscan & Hcull & Hpop & Hloop & Hspec & ->).
  apply reproduceLoop_copies in Hloop. cbn [app] in Hloop. subst ns.
  apply speciate_shape in Hspec. destruct Hspec as (olds & news & -> & Hgrow & Hnew).
  exists species1, st, w1, cs, w2, olds, news. cbn [PopSpecies]. auto 6.
Qed.

Lemma prune_nonempty (ss : list Species) (s : Species) :
  In s (prune ss) -> Orgs s <> [].
Proof.
  intro H. apply filter_In in H. destruct H as [_ H].
  destruct (Orgs s); [discriminate H | discriminate].
Qed.

Lemma prune_length (ss : list Species) :
  (length (prune ss) <= length (flat_map Orgs (prune ss)))%nat.
Proof.
  induction ss as [|s rest IH]; [reflexivity|]. cbn [prune filter].
  destruct (Orgs s) as [|o l] eqn:Ho; cbn [length Z.of_nat Z.ltb Z.compare].
  - exact IH.
  - cbn [flat_map length]. rewrite Ho, length_app. cbn [length].
    fold (prune rest). lia.
Qed.

(** X9: the population a step hands back is one generation on, has no
    species without organisms, and so has at most as many species as
    organisms. *)
Theorem next_population_finalised (settings : Settings) (population nextPop : Population)
        (w w' : W) :
  rollPop settings population w = Ok (nextPop, w') ->
  Generation nextPop = wrap (Generation population + 1) /\
  (forall s, In s (PopSpecies nextPop) -> Orgs s <> []) /\
  (length (PopSpecies nextPop) <= length (Organisms nextPop))%nat.
Proof.
  intro H. apply rollPop_phases in H.
  destruct H as (species1 & st & w1 & cs & w2 & popOrgs & w3 & ns & children & w4
                 & ns' & _ & _ & _ & _ & _ & ->).
  cbn [Generation PopSpecies]. split; [reflexivity|]. split.
  - intros s. apply prune_nonempty.
  - unfold Organisms. cbn [PopSpecies]. apply prune_length.
Qed.



End StepInFull.

(** ** The queries, in full *)

Section QueriesInFull.

Context {NodeGene ConnGene : Type}.
Local Abbreviation Organism := (@Organism NodeGene ConnGene).
Local Abbreviation Species := (@Species NodeGene ConnGene).
Local Abbreviation Population := (@Population NodeGene ConnGene).

Lemma fold_geneCount (orgs : list Organism) : forall tot,
  fold_left (fun t o => t + geneCount o) orgs tot
  = tot + fold_right Z.add 0 (map geneCount orgs).
Proof.
  induction orgs as [|o rest IH]; intro tot; cbn [fold_left map fold_right]; [lia|].
  rewrite IH. lia.
Qed.

Lemma mpcLoop_totals (ss : list Species) : forall tot cnt,
  mpcLoop ss tot cnt
  = (tot + fold_right Z.add 0 (map geneCount (flat_map Orgs ss)),
     cnt + Z.of_nat (length ss)).
Proof.
  induction ss as [|s rest IH]; intros tot cnt; cbn [mpcLoop flat_map length].
  - f_equal; cbn; lia.
  - rewrite IH, fold_geneCount, map_app, fold_right_app.
    f_equal; [|lia].
    assert (Hsum : forall l acc, fold_right Z.add acc l = fold_right Z.add 0 l + acc).
    { induction l as [|x l IHl]; intro acc; cbn [fold_right]; [lia|].
      rewrite IHl. lia. }
    rewrite (Hsum (map geneCount (Orgs s))
                  (fold_right Z.add 0 (map geneCount (flat_map Orgs rest)))). lia.
Qed.

(** X12: [MPC] is the number of genes of all the organisms that [Organisms]
    lists, divided in [float64] by the number of species: a mean per species,
    not per organism. *)
Theorem MPC_is_genes_per_species (pop : Population) :
  MPC pop
  = PrimFloat.div
      (float64_of_int (fold_right Z.add 0 (map geneCount (Organisms pop))))
      (float64_of_int (Z.of_nat (length (PopSpecies pop)))).
Proof.
  unfold MPC, Organisms. rewrite mpcLoop_totals. reflexivity.
Qed.

(** X13: on a population without species [MPC] does not panic: it is the
    [float64] division of zero by zero, NaN. *)
Theorem MPC_without_species (pop : Population) :
  PopSpecies pop = [] -> PrimFloat.is_nan (MPC pop) = true.
Proof.
  unfold MPC. rewrite mpcLoop_totals. intros ->. vm_compute. reflexivity.
Qed.

End QueriesInFull.

(** ** The initial population *)

Section InitialProperties.

Context {NodeGene ConnGene W : Type} {E : @Externals NodeGene ConnGene W}
        {G : @SeedExternals NodeGene ConnGene W}.
Local Abbreviation Genome := (@Genome NodeGene ConnGene).
Local Abbreviation Organism := (@Organism NodeGene ConnGene).
Local Abbreviation Population := (@Population NodeGene ConnGene).

(** The weight loop visits every connection gene once, in order. *)
Lemma reweigh_spec (conns : list ConnGene) : forall w conns' w',
  reweigh conns w = Ok (conns', w') ->
  exists xs, length xs = length conns /\
    conns' = map (fun cx => setWeight (fst cx) (snd cx)) (combine conns xs).
Proof.
  induction conns as [|cg rest IH]; intros w conns' w' H; cbn [reweigh] in H.
  - step_inv H. inversion H. exists []. split; reflexivity.
  - step H as x w1 Hx. step H as rest' w2 Hrest. step_inv H. inversion H; subst.
    apply IH in Hrest. destruct Hrest as (xs & Hlen & ->).
    exists (x :: xs). cbn. split; [congruence | reflexivity].
Qed.

Lemma fillSpecies_spec (n : nat) (ig : Genome) : forall (orgs orgs' : list Organism) w w',
  fillSpecies n ig orgs w = Ok (orgs', w') ->
  exists added, orgs' = orgs ++ added /\ length added = n /\
                Forall (seedClone ig) added.
Proof.
  induction n as [|n IH]; intros orgs orgs' w w' H; cbn [fillSpecies] in H.
  - step_inv H. inversion H. exists []. rewrite app_nil_r. auto.
  - step H as id w1 Hid. step H as g w2 Hg. step H as conns w3 Hconns.
    apply IH in H. destruct H as (added & -> & Hlen & Hall).
    apply reweigh_spec in Hconns. destruct Hconns as (xs & Hxs & ->).
    eexists (_ :: added). rewrite <- app_assoc. split; [reflexivity|].
    split; [cbn [length]; congruence|]. constructor; [|exact Hall].
    exists id, w1, g, w2, xs. cbn. auto.
Qed.

(** X14: a population that [initialPopulation] hands back without an error is
    generation 1 and has one species, under the first identifier drawn, of
    age zero and without example; its organisms are [PopulationSize] in
    number, each a clone of the one seed genome that [initialGenome] returned,
    with every connection weight assigned once and no fitness yet. *)
Theorem initialPopulation_shape (settings : Settings) (pop : Population) (w w' : W) :
  initialPopulation settings w = Ok (Seeded pop, w') ->
  Generation pop = 1 /\
  exists s ig w1,
    PopSpecies pop = [s] /\
    ID s = fst (inno_nextID w) /\ Age s = 0 /\ Example s = None /\
    initialGenome settings (snd (inno_nextID w)) = Ok (inl ig, w1) /\
    Z.of_nat (length (Orgs s)) = PopulationSize settings /\
    Forall (seedClone ig) (Orgs s).
Proof.
  unfold initialPopulation. intro H. step H as id w0 Hid. apply total_Ok in Hid.
  destruct (PopulationSize settings <? 0) eqn:Hneg; [discriminate H|].
  apply Z.ltb_ge in Hneg.
  step H as r w1 Hseed. destruct r as [ig|e]; [|step_inv H; discriminate H].
  step H as orgs w2 Hfill. step_inv H. inversion H; subst. clear H.
  split; [reflexivity|]. eexists. exists ig, w1. cbn [PopSpecies ID Age Example Orgs].
  rewrite <- Hid. cbn [fst snd].
  apply fillSpecies_spec in Hfill. cbn [app] in Hfill.
  destruct Hfill as (added & -> & Hlen & Hall).
  split; [reflexivity|]. split; [reflexivity|]. split; [reflexivity|].
  split; [reflexivity|]. split; [exact Hseed|]. cbn [Orgs]. split; [lia | exact Hall].
Qed.

(** X15: [initialPopulation] returns an error exactly when the size is not
    negative and [initialGenome], called right after the species'
    identifier was drawn, returns that error; the error comes back as it is,
    no genome is cloned, and the population handed back with it has the
    species' identifier and [PopulationSize] empty slots.  With a negative
    size it panics before the seed genome is asked for. *)
Theorem initialPopulation_failure (settings : Settings) (w : W) :
  (forall id n e w',
     initialPopulation settings w = Ok (SeedFailed id n e, w') <->
     0 <= PopulationSize settings /\
     id = fst (inno_nextID w) /\ n = PopulationSize settings /\
     initialGenome settings (snd (inno_nextID w)) = Ok (inr e, w')) /\
  (PopulationSize settings < 0 ->
   initialPopulation settings w = Panic MakeSliceCap).
Proof.
  unfold initialPopulation, bind, total.
  destruct (inno_nextID w) as [id0 w0]. cbn [fst snd].
  split.
  - intros id n e w'. destruct (PopulationSize settings <? 0) eqn:Hneg.
    + apply Z.ltb_lt in Hneg. split; [discriminate | lia].
    + apply Z.ltb_ge in Hneg.
      destruct (initialGenome settings w0) as [[[ig|e0] w1]|p].
      * split.
        -- destruct (fillSpecies (Z.to_nat (PopulationSize settings)) ig [] w1)
             as [[orgs w2]|p]; discriminate.
        -- intros (_ & _ & _ & Habs). discriminate Habs.
      * unfold ret. split.
        -- intro H. inversion H; subst. auto.
        -- intros (_ & -> & -> & H). inversion H; subst. reflexivity.
      * split; [discriminate|]. intros (_ & _ & _ & Habs). discriminate Habs.
  - intro Hneg. apply Z.ltb_lt in Hneg. rewrite Hneg. reflexivity.
Qed.

Lemma scanOrgs_no_fitness (s : @Species NodeGene ConnGene) (o : Organism)
      (rest : list Organism) (st : bestState) :
  Fitness o = [] -> scanOrgs s (o :: rest) st = Panic IndexOutOfRange.
Proof. intro H. cbn [scanOrgs]. unfold fitness0. rewrite H. reflexivity. Qed.

(** X16: a step cannot be taken on the initial population as
    [initialPopulation] leaves it.  Its organisms have no fitness, so when
    [calcFitness] does not replace the organisms of a species, [rollPop] on
    a population of one organism or more panics. *)
Theorem rollPop_on_unevaluated_population (settings : Settings) (pop : Population)
        (w w' w2 : W) :
  (forall s wa s' wb, calcFitness s wa = Ok (s', wb) -> Orgs s' = Orgs s) ->
  1 <= PopulationSize settings ->
  initialPopulation settings w = Ok (Seeded pop, w') ->
  exists p, rollPop settings pop w2 = Panic p.
Proof.
  intros Hframe Hsize Hinit.
  destruct (rollPop settings pop w2) as [[nextPop w3]|p] eqn:Hroll; [|eauto].
  exfalso. apply rollPop_phases in Hroll.
  destruct Hroll as (species1 & st & w1 & _ & _ & _ & _ & _ & _ & _ & _ & Hscan & _).
  unfold initialPopulation in Hinit. step Hinit as id w0 Hid.
  destruct (PopulationSize settings <? 0); [discriminate Hinit|].
  step Hinit as r w4 Hseed. destruct r as [ig|e]; [|step_inv Hinit; discriminate Hinit].
  step Hinit as orgs w5 Hfill. step_inv Hinit. inversion Hinit; subst. clear Hinit.
  apply fillSpecies_spec in Hfill. cbn [app] in Hfill.
  destruct Hfill as (added & -> & Hlen & Hall).
  destruct added as [|o more]; [cbn [length] in Hlen; lia|].
  inversion Hall as [|o' l' Ho _]; subst.
  destruct Ho as (_ & _ & _ & _ & _ & _ & _ & _ & Hfit).
  cbn [PopSpecies scanSpecies] in Hscan.
  step Hscan as s1 w6 Hcalc. apply Hframe in Hcalc. cbn [Orgs] in Hcalc.
  step Hscan as st1 w7 Hst. apply pure_Ok in Hst. destruct Hst as [Hst _].
  rewrite Hcalc, (scanOrgs_no_fitness _ _ _ _ Hfit) in Hst. discriminate Hst.
Qed.

End InitialProperties.

(** ** Printing *)

Module PrintingProperties.

Import String Ascii Printing.
Local Open Scope string_scope.

Lemma string_of_uint_spaceless (d : Decimal.uint) :
  spaceless (DecimalString.NilEmpty.string_of_uint d).
Proof.
  induction d; cbn; try exact I; (split; [discriminate | assumption]).
Qed.

Lemma decimal_spaceless (z : Z) : spaceless (decimal z).
Proof.
  unfold decimal, DecimalString.NilEmpty.string_of_int.
  destruct (Z.to_int z) as [d|d].
  - apply string_of_uint_spaceless.
  - cbn. split; [discriminate | apply string_of_uint_spaceless].
Qed.

Lemma decimal_inj (a b : Z) : decimal a = decimal b -> a = b.
Proof.
  unfold decimal. intro H.
  apply (f_equal DecimalString.NilEmpty.int_of_string) in H.
  rewrite !DecimalString.NilEmpty.isi in H. inversion H as [H1].
  rewrite <- (DecimalZ.of_to a), <- (DecimalZ.of_to b), H1. reflexivity.
Qed.

Lemma append_inj_l (a x y : string) : a ++ x = a ++ y -> x = y.
Proof.
  induction a as [|c a IH]; cbn; intro H; [exact H|].
  inversion H. auto.
Qed.

(** Two texts without spaces, each followed by a space, split alike. *)
Lemma split_at_space (x : string) : forall x' r r',
  spaceless x -> spaceless x' ->
  x ++ String Space r = x' ++ String Space r' -> x = x' /\ r = r'.
Proof.
  induction x as [|c x IH]; intros x' r r' Hx Hx' H; destruct x' as [|c' x']; cbn in *.
  - inversion H. auto.
  - inversion H; subst. tauto.
  - inversion H; subst. tauto.
  - inversion H; subst. destruct Hx as [_ Hx], Hx' as [_ Hx'].
    destruct (IH _ _ _ Hx Hx' H2) as [-> ->]. auto.
Qed.

(** X17: the text [String] prints determines the generation and the number
    of species: two populations print alike only if they agree on both. *)
Theorem Population_String_determines {NodeGene ConnGene : Type}
        (p1 p2 : @Population NodeGene ConnGene) :
  Population_String p1 = Population_String p2 ->
  Generation p1 = Generation p2 /\
  List.length (PopSpecies p1) = List.length (PopSpecies p2).
Proof.
  unfold Population_String. intro H. apply append_inj_l in H.
  change (" with " ++ ?r) with (String Space ("with " ++ r)) in H.
  apply split_at_space in H; try apply decimal_spaceless.
  destruct H as [Hgen H]. apply append_inj_l in H.
  change " Species" with (String Space "Species") in H.
  apply split_at_space in H; try apply decimal_spaceless.
  destruct H as [Hlen _].
  split; [apply decimal_inj; exact Hgen|].
  apply Nat2Z.inj, decimal_inj. exact Hlen.
Qed.

End PrintingProperties.

(** ** Skipped slots and the count *)

Section CountInFull.

Context {NodeGene ConnGene W : Type} {E : @Externals NodeGene ConnGene W}.
Local Abbreviation Organism := (@Organism NodeGene ConnGene).
Local Abbreviation Species := (@Species NodeGene ConnGene).

(** X18: ensuring the count leaves exactly [PopulationSize] children and keeps
    the front of the list.  A list that is too long is cut to its first
    [PopulationSize] children without a draw; a list that is not is kept
    whole and followed by the missing number of children, each the mutation
    of a crossover of two parents selected from the whole pool. *)
Theorem ensureCount_keeps_front (settings : Settings) (popOrgs : list Organism)
        (totPop : float) (children c' : list Organism) (w w' : W) :
  ensureCount settings popOrgs totPop children w = Ok (c', w') ->
  Z.of_nat (length c') = PopulationSize settings /\
  (PopulationSize settings < Z.of_nat (length children) ->
   c' = firstn (Z.to_nat (PopulationSize settings)) children /\ w' = w) /\
  (Z.of_nat (length children) <= PopulationSize settings ->
   exists more,
     c' = children ++ more /\
     Z.of_nat (length more) = PopulationSize settings - Z.of_nat (length children) /\
     Forall (toppedUpFrom settings popOrgs) more).
Proof.
  intro H. split; [apply ensureCount_spec in H; tauto|].
  unfold ensureCount in H.
  destruct (Z.of_nat (length children) >? PopulationSize settings) eqn:Hgt;
    rewrite Z.gtb_ltb in Hgt; [apply Z.ltb_lt in Hgt | apply Z.ltb_ge in Hgt].
  - destruct (PopulationSize settings <? 0); [discriminate H|].
    step_inv H. inversion H; subst. split; [auto | lia].
  - split; [lia|]. intros _.
    destruct (topUp_appends _ _ _ _ _ _ _ _ H) as (more & Hc & Hlen).
    destruct (topUp_origin _ _ _ _ _ _ _ _ H) as (more' & Hc' & Hall).
    rewrite Hc in Hc'. apply app_inv_head in Hc'. subst more'.
    exists more. split; [exact Hc|]. split; [lia | exact Hall].
Qed.

(** X19: when every draw of [random.Float64] falls below
    [InterspeciesMating], every slot of the offspring loop is skipped: the
    loop returns the children it was given, and selects, clones and crosses
    nothing. *)
Theorem offspringLoop_all_skipped (settings : Settings) (currS : Species)
        (orgFit : float) (popOrgs : list Organism) (totPop : float) (n : nat)
        (children : list Organism) (w : W) :
  (forall w0, PrimFloat.ltb (fst (random_Float64 w0))
                            (InterspeciesMating settings) = true) ->
  offspringLoop n settings currS orgFit popOrgs totPop children w
  = Ok (children, Nat.iter n (fun w0 => snd (random_Float64 w0)) w).
Proof.
  intro Hskip. revert w. induction n as [|n IH]; intro w; [reflexivity|].
  cbn [offspringLoop]. unfold bind at 1. unfold offspringSlot, bind at 1, total.
  assert (Hw := Hskip w). destruct (random_Float64 w) as [r w1] eqn:Hr.
  cbn [fst] in Hw. rewrite Hw. unfold ret at 1. rewrite IH.
  rewrite Nat.iter_succ_r, Hr. reflexivity.
Qed.

End CountInFull.

(** * More sample runs *)

Lemma tournament_first_to_reach_witness :
  tournament (E := Demo.collaborators) Demo.poolPair 10%float Demo.world0
  = Ok (Some Demo.eliteB, snd (Demo.drawFloat Demo.world0)).
Proof.
  destruct (tournament_first_to_reach (E := Demo.collaborators) Demo.poolPair
              10%float Demo.world0) as (r & Hr & _).
  - intros o [<-|[<-|[]]]; discriminate.
  - rewrite Hr. assert (H := Hr). vm_compute in H. inversion H. reflexivity.
Defined.

Lemma best_species_is_first_to_reach_witness :
  exists species1 b bestFit w1 pre post,
    scanSpecies (E := Demo.collaborators) Demo.popTie (None, 0%float) Demo.world0
      = Ok (species1, (Some b, bestFit), w1) /\
    ID b = 7 /\ bestFit = 9%float /\ pre = [] /\ species1 = pre ++ b :: post.
Proof.
  destruct (scanSpecies (E := Demo.collaborators) Demo.popTie (None, 0%float)
                        Demo.world0)
    as [[[species1 [[b|] bestFit]] w1]|p] eqn:Hscan;
    try (vm_compute in Hscan; discriminate Hscan).
  destruct (best_species_is_first_to_reach (E := Demo.collaborators) Demo.popTie
              species1 b bestFit Demo.world0 w1 Hscan) as (pre & post & Hsplit & _ & _).
  exists species1, b, bestFit, w1, pre, post. split; [reflexivity|].
  assert (Hc := Hscan). vm_compute in Hc. injection Hc as Hs1 Hb Hbf Hw.
  split; [rewrite <- Hb; reflexivity|]. split; [symmetry; exact Hbf|].
  split; [|exact Hsplit].
  rewrite <- Hs1, <- Hb in Hsplit.
  destruct pre as [|x pre]; [reflexivity|]. exfalso.
  destruct pre as [|y pre].
  - apply (f_equal (map ID)) in Hsplit. cbn in Hsplit. discriminate Hsplit.
  - apply (f_equal (@length _)) in Hsplit. cbn [app length] in Hsplit.
    rewrite length_app in Hsplit. cbn [length] in Hsplit. lia.
Defined.

Lemma gate_keeps_exactly_the_viable_witness :
  exists cs w',
    cullLoop (E := Demo.collaborators) (Demo.config 4 1 1)
             (Some (Demo.scanned 8 [Demo.mkOrg 2 3 2 9%float] 30 0 9%float))
             Demo.gateThree
             {| living := []; adjFit := 0%float; popFit := 0%float |} Demo.world0
      = Ok (cs, w') /\
    map ID (living cs) = [8; 9].
Proof.
  destruct (cullLoop (E := Demo.collaborators) (Demo.config 4 1 1)
             (Some (Demo.scanned 8 [Demo.mkOrg 2 3 2 9%float] 30 0 9%float))
             Demo.gateThree
             {| living := []; adjFit := 0%float; popFit := 0%float |} Demo.world0)
    as [[cs w']|p] eqn:Hcull; [|vm_compute in Hcull; discriminate Hcull].
  exists cs, w'. split; [reflexivity|].
  rewrite (proj2 (gate_keeps_exactly_the_viable (E := Demo.collaborators)
                    (Demo.config 4 1 1) _ Demo.gateThree cs Demo.world0 w' Hcull)).
  reflexivity.
Defined.


Lemma place_is_first_match_witness :
  exists ss' w' pre s post,
    place (E := Demo.collaborators) (Demo.config 10 0.5 1)
          (Demo.mkOrg 11 5 5 0%float) Demo.anchors Demo.world0 = Ok (Some ss', w') /\
    map ID ss' = [7; 8] /\ map (fun x => length (Orgs x)) ss' = [0; 1]%nat /\
    Demo.anchors = pre ++ s :: post /\
    Forall (notCloseTo (E := Demo.collaborators) (Demo.config 10 0.5 1)
                       (Demo.mkOrg 11 5 5 0%float)) pre /\
    closeTo (E := Demo.collaborators) (Demo.config 10 0.5 1)
            (Demo.mkOrg 11 5 5 0%float) s.
Proof.
  destruct (place (E := Demo.collaborators) (Demo.config 10 0.5 1)
          (Demo.mkOrg 11 5 5 0%float) Demo.anchors Demo.world0)
    as [[[ss'|] w']|p] eqn:Hplace; try (vm_compute in Hplace; discriminate Hplace).
  assert (H := place_is_first_match (E := Demo.collaborators) (Demo.config 10 0.5 1)
                 (Demo.mkOrg 11 5 5 0%float) Demo.anchors (Some ss')
                 Demo.world0 w' Hplace).
  cbv beta iota in H. destruct H as (pre & s & post & Hsplit & _ & Hpre & Hs).
  exists ss', w', pre, s, post. split; [reflexivity|].
  assert (Hids : map ID ss' = [7; 8]).
  { assert (Hc := Hplace).
    apply (f_equal (fun r => match r with
                             | Ok (Some l, _) => map ID l
                             | _ => []
                             end)) in Hc.
    vm_compute in Hc. symmetry. exact Hc. }
  assert (Hlens : map (fun x => length (Orgs x)) ss' = [0; 1]%nat).
  { assert (Hc := Hplace).
    apply (f_equal (fun r => match r with
                             | Ok (Some l, _) => map (fun x => length (Orgs x)) l
                             | _ => []
                             end)) in Hc.
    vm_compute in Hc. symmetry. exact Hc. }
  auto 6.
Defined.

Lemma speciate_conserves_witness :
  exists ss' w',
    speciate (E := Demo.collaborators) (Demo.config 10 0.5 1) Demo.brood
             Demo.anchors Demo.world0 = Ok (ss', w') /\
    Permutation Demo.brood (flat_map Orgs ss') /\
    map ID ss' = [7; 8; 1000].
Proof.
  destruct (speciate (E := Demo.collaborators) (Demo.config 10 0.5 1) Demo.brood
             Demo.anchors Demo.world0) as [[ss' w']|p] eqn:Hrun;
    [|vm_compute in Hrun; discriminate Hrun].
  destruct (speciate_conserves (E := Demo.collaborators) (Demo.config 10 0.5 1)
              Demo.brood Demo.anchors ss' Demo.world0 w' Hrun) as [Hperm _].
  exists ss', w'. split; [reflexivity|]. split; [exact Hperm|].
  vm_compute in Hrun. inversion Hrun. reflexivity.
Defined.

Lemma next_population_origin_witness :
  exists nextPop w',
    rollPop (E := Demo.collaborators) (Demo.config 10 0.5 1) Demo.popTen Demo.world0
      = Ok (nextPop, w') /\
    forall o, In o (Organisms nextPop) ->
      o = Demo.mkOrg 10 3 2 10%float \/
      (exists c w1 w2, Demo.addNode (Demo.config 10 0.5 1) c w1 = Ok (o, w2)).
Proof.
  destruct (rollPop (E := Demo.collaborators) (Demo.config 10 0.5 1)
                    Demo.popTen Demo.world0) as [[nextPop w']|p] eqn:Hrun;
    [|vm_compute in Hrun; discriminate Hrun].
  exists nextPop, w'. split; [reflexivity|].
  destruct (next_population_origin (E := Demo.collaborators)
              (Demo.config 10 0.5 1) Demo.popTen nextPop Demo.world0 w' Hrun)
    as (species1 & st & w1 & cs & w2 & popOrgs & w3 & Hscan & Hcull & _ & Hfrom).
  vm_compute in Hscan. inversion Hscan; subst species1 st w1. clear Hscan.
  vm_compute in Hcull. inversion Hcull; subst cs w2. clear Hcull.
  intros o Ho. destruct (Hfrom o Ho) as (s1 & rest & Hliv & Horigin).
  cbn [living] in Hliv. inversion Hliv; subst s1 rest. clear Hliv.
  destruct Horigin as [[<-|[]]|[Hbred|Htop]].
  - left. reflexivity.
  - right. destruct Hbred as (c & wa & wb & Hmut & _). eauto.
  - right. destruct Htop as (c & wa & wb & _ & _ & _ & Hmut & _). eauto.
Defined.

Lemma next_population_species_witness :
  exists nextPop w' olds news,
    rollPop (E := Demo.collaborators) (Demo.config 2 1 1) Demo.popApart Demo.world0
      = Ok (nextPop, w') /\
    PopSpecies nextPop = prune (olds ++ news) /\
    map ID (PopSpecies nextPop) = [100; 1002] /\
    map Age (PopSpecies nextPop) = [1; 0] /\
    Forall (founded (E := Demo.collaborators)) news.
Proof.
  destruct (rollPop (E := Demo.collaborators) (Demo.config 2 1 1)
                    Demo.popApart Demo.world0) as [[nextPop w']|p] eqn:Hrun;
    [|vm_compute in Hrun; discriminate Hrun].
  destruct (next_population_species (E := Demo.collaborators)
              (Demo.config 2 1 1) Demo.popApart nextPop Demo.world0 w' Hrun)
    as (species1 & st & w1 & cs & w2 & olds & news & _ & _ & Hsp & _ & Hnew).
  exists nextPop, w', olds, news. split; [reflexivity|]. split; [exact Hsp|].
  assert (Hids : map ID (PopSpecies nextPop) = [100; 1002]).
  { assert (Hc := Hrun).
    apply (f_equal (fun r => match r with
                             | Ok (pop, _) => map ID (PopSpecies pop)
                             | _ => []
                             end)) in Hc.
    vm_compute in Hc. symmetry. exact Hc. }
  assert (Hages : map Age (PopSpecies nextPop) = [1; 0]).
  { assert (Hc := Hrun).
    apply (f_equal (fun r => match r with
                             | Ok (pop, _) => map Age (PopSpecies pop)
                             | _ => []
                             end)) in Hc.
    vm_compute in Hc. symmetry. exact Hc. }
  auto.
Defined.

Lemma next_population_finalised_witness :
  exists nextPop w',
    rollPop (E := Demo.collaborators) (Demo.config 4 1 1) Demo.popTwo Demo.world0
      = Ok (nextPop, w') /\
    Generation nextPop = 5 /\
    (forall s, In s (PopSpecies nextPop) -> Orgs s <> []) /\
    (length (PopSpecies nextPop) <= length (Organisms nextPop))%nat.
Proof.
  destruct (rollPop (E := Demo.collaborators) (Demo.config 4 1 1)
                    Demo.popTwo Demo.world0) as [[nextPop w']|p] eqn:Hrun;
    [|vm_compute in Hrun; discriminate Hrun].
  destruct (next_population_finalised (E := Demo.collaborators)
              (Demo.config 4 1 1) Demo.popTwo nextPop Demo.world0 w' Hrun)
    as (Hgen & Hfull & Hcount).
  exists nextPop, w'. split; [reflexivity|]. rewrite Hgen. auto.
Defined.



Lemma MPC_without_species_witness :
  PrimFloat.is_nan (MPC {| Generation := 1; PopSpecies := @nil (@Species Z Z) |}) = true.
Proof.
  exact (MPC_without_species {| Generation := 1; PopSpecies := @nil (@Species Z Z) |}
           eq_refl).
Defined.

(** Two species with four organisms of five genes each: twenty genes over two
    species. *)
Lemma MPC_is_genes_per_species_witness : MPC Demo.popTwo = 10%float.
Proof. rewrite MPC_is_genes_per_species. vm_compute. reflexivity. Defined.

Lemma initialPopulation_shape_witness :
  exists pop w' s,
    initialPopulation (E := Demo.collaborators) (G := Demo.seeding)
                      (Demo.config 3 0.5 1) Demo.world0 = Ok (Seeded pop, w') /\
    Generation pop = 1 /\ PopSpecies pop = [s] /\ ID s = 1000 /\
    Z.of_nat (length (Orgs s)) = 3 /\
    Forall (seedClone (G := Demo.seeding) Demo.seedGenome) (Orgs s).
Proof.
  destruct (initialPopulation (E := Demo.collaborators) (G := Demo.seeding)
                              (Demo.config 3 0.5 1) Demo.world0)
    as [[[pop|id n e] w']|p] eqn:Hrun; try (vm_compute in Hrun; discriminate Hrun).
  destruct (initialPopulation_shape (E := Demo.collaborators) (G := Demo.seeding)
              (Demo.config 3 0.5 1) pop Demo.world0 w' Hrun)
    as (Hgen & s & ig & w1 & Hsp & Hid & _ & _ & Hseed & Hlen & Hall).
  exists pop, w', s. split; [reflexivity|]. split; [exact Hgen|].
  split; [exact Hsp|]. split; [exact Hid|]. split; [exact Hlen|].
  vm_compute in Hseed. inversion Hseed; subst ig. exact Hall.
Defined.

Lemma initialPopulation_failure_witness :
  initialPopulation (E := Demo.collaborators) (G := Demo.seeding)
                    (Demo.config 3 0.5 (-1)) Demo.world0
  = Ok (SeedFailed 1000 3 Demo.seedRefused, snd (Demo.freshId Demo.world0)) /\
  initialPopulation (E := Demo.collaborators) (G := Demo.seeding)
                    (Demo.config (-3) 0.5 1) Demo.world0
  = Panic MakeSliceCap.
Proof.
  destruct (initialPopulation_failure (E := Demo.collaborators) (G := Demo.seeding)
              (Demo.config 3 0.5 (-1)) Demo.world0) as [Hfail _].
  destruct (initialPopulation_failure (E := Demo.collaborators) (G := Demo.seeding)
              (Demo.config (-3) 0.5 1) Demo.world0) as [_ Hneg].
  split.
  - apply Hfail. split; [discriminate|]. split; [reflexivity|].
    split; reflexivity.
  - apply Hneg. reflexivity.
Defined.

Lemma aggregate_keeps_organisms (s : Demo.species) (wa : Demo.world)
      (s' : Demo.species) (wb : Demo.world) :
  Demo.aggregate s wa = Ok (s', wb) -> Orgs s' = Orgs s.
Proof.
  unfold Demo.aggregate, bind, pure, ret.
  destruct (Demo.sumFitness (Orgs s) 0%float); [|discriminate].
  intro H. inversion H. reflexivity.
Qed.

Lemma rollPop_on_unevaluated_population_witness :
  exists pop w',
    initialPopulation (E := Demo.collaborators) (G := Demo.seeding)
                      (Demo.config 3 0.5 1) Demo.world0 = Ok (Seeded pop, w') /\
    exists p, rollPop (E := Demo.collaborators) (Demo.config 3 0.5 1) pop w' = Panic p.
Proof.
  destruct (initialPopulation (E := Demo.collaborators) (G := Demo.seeding)
                              (Demo.config 3 0.5 1) Demo.world0)
    as [[[pop|id n e] w']|p] eqn:Hrun; try (vm_compute in Hrun; discriminate Hrun).
  exists pop, w'. split; [reflexivity|].
  apply (rollPop_on_unevaluated_population (E := Demo.collaborators)
           (G := Demo.seeding) (Demo.config 3 0.5 1) pop Demo.world0 w' w');
    [exact aggregate_keeps_organisms | discriminate | exact Hrun].
Defined.

Lemma Population_String_determines_witness :
  Printing.Population_String Demo.popTen = Printing.Population_String Demo.popLone /\
  Generation Demo.popTen = Generation Demo.popLone /\
  length (PopSpecies Demo.popTen) = length (PopSpecies Demo.popLone).
Proof.
  split; [reflexivity|].
  apply (PrintingProperties.Population_String_determines Demo.popTen Demo.popLone).
  reflexivity.
Defined.

(** What [String] prints for a population of generation 4 with two species:
    "Population: Generation is 4 with 2 Species", by character codes. *)
Example Population_String_popTwo :
  String.list_ascii_of_string (Printing.Population_String Demo.popTwo)
  = map Ascii.ascii_of_nat
        [80; 111; 112; 117; 108; 97; 116; 105; 111; 110; 58; 32;
         71; 101; 110; 101; 114; 97; 116; 105; 111; 110; 32; 105; 115; 32;
         52; 32; 119; 105; 116; 104; 32; 50; 32;
         83; 112; 101; 99; 105; 101; 115]%nat.
Proof. vm_compute. reflexivity. Qed.

Lemma drawFloat_below_one (w : Demo.world) :
  PrimFloat.ltb (fst (Demo.drawFloat w)) 1 = true.
Proof.
  unfold Demo.drawFloat. destruct (Demo.floats w) as [|f l]; [reflexivity|].
  cbn [fst]. unfold Demo.unitInterval.
  destruct (PrimFloat.ltb f 0); [reflexivity|].
  destruct (PrimFloat.ltb f 1) eqn:H; [exact H | reflexivity].
Qed.

Lemma ensureCount_keeps_front_witness :
  exists c' w' more,
    ensureCount (E := Demo.collaborators) (Demo.config 4 1 1) Demo.poolPair
                10%float [Demo.eliteA] Demo.world0 = Ok (c', w') /\
    c' = [Demo.eliteA] ++ more /\ Z.of_nat (length more) = 3.
Proof.
  destruct (ensureCount (E := Demo.collaborators) (Demo.config 4 1 1) Demo.poolPair
                10%float [Demo.eliteA] Demo.world0) as [[c' w']|p] eqn:Hrun;
    [|vm_compute in Hrun; discriminate Hrun].
  destruct (ensureCount_keeps_front (E := Demo.collaborators) (Demo.config 4 1 1)
              Demo.poolPair 10%float [Demo.eliteA] c' Demo.world0 w' Hrun)
    as (_ & _ & Hshort).
  destruct (Hshort ltac:(vm_compute; discriminate)) as (more & Hc & Hlen & _).
  exists c', w', more. split; [reflexivity|]. split; [exact Hc | exact Hlen].
Defined.

Lemma offspringLoop_all_skipped_witness :
  exists w',
    offspringLoop (E := Demo.collaborators) 3
                  {| PopulationSize := 4; SurvivalPercent := 1; EliteCount := 1;
                     AgeToStagnation := 5; Crossover := 0.75;
                     InterspeciesMating := 1; CompatThreshold := 3 |}
                  (Demo.survivor 7 Demo.eliteA 4%float) 4%float Demo.poolPair
                  10%float [Demo.eliteA] Demo.world0
    = Ok ([Demo.eliteA], w').
Proof.
  eexists.
  apply (offspringLoop_all_skipped (E := Demo.collaborators)
           {| PopulationSize := 4; SurvivalPercent := 1; EliteCount := 1;
              AgeToStagnation := 5; Crossover := 0.75;
              InterspeciesMating := 1; CompatThreshold := 3 |}).
  exact drawFloat_below_one.
Defined.
